(** * Caption Edit Tool: a shallow embedding of caption-edit.py

    The script enumerates the .txt files below a directory, rewrites the
    content of each (substring replacement, optional prefix and suffix),
    writes the result in place or below an output directory, and reports
    per-file failures.

    Layout of this development:
    - [Str]: the Python [str] methods the script calls;
    - the content transform [edit_file_content];
    - the interface [OS] through which the script reaches the operating
      system, and the state-and-exception monad [M] its functions live in;
    - [scan_directory], [process_files], [confirm_operation], [main];
    - [Posix]: an executable in-memory file system implementing [OS];
    - the theorems. *)

From stdpp Require Import gmap strings list pretty.
From Stdlib Require Import Ascii.

#[local] Arguments String.append !_ _ / : simpl nomatch.

(** ** Python strings *)

Module Str.

(** [c.startswith(t)]. *)
Fixpoint startswith (t c : string) : bool :=
  match t, c with
  | EmptyString, _ => true
  | String _ _, EmptyString => false
  | String a t', String b c' => if decide (a = b) then startswith t' c' else false
  end.

(** [c.endswith(t)]. *)
Definition endswith (t c : string) : bool :=
  startswith (String.rev t) (String.rev c).

(** [t in c] on strings: [t] occurs somewhere in [c]. *)
Fixpoint contains (t c : string) : bool :=
  startswith t c ||
  match c with
  | EmptyString => false
  | String _ c' => contains t c'
  end.

(** The scan of [str.replace] for a non-empty [target]: walk [content] from
    the left; where [target] starts, emit [swap] and step over the whole
    occurrence ([skip] counts the characters of it still to be stepped
    over, so that occurrences never overlap); elsewhere copy the
    character. *)
Fixpoint replace_scan (target swap : string) (skip : nat) (content : string) : string :=
  match content with
  | EmptyString => EmptyString
  | String ch rest =>
      match skip with
      | S k => replace_scan target swap k rest
      | O =>
          if startswith target content
          then swap +:+ replace_scan target swap (String.length target - 1) rest
          else String ch (replace_scan target swap 0 rest)
      end
  end.

(** A Python [str] is kept as the bytes of its UTF-8 form.  [ch] is a byte
    that continues a character of several bytes. *)
Definition is_continuation (ch : ascii) : bool :=
  let n := nat_of_ascii ch in
  (128 <=? n)%nat && (n <=? 191)%nat.

(** The characters of [s], each a first byte with the continuation bytes
    that follow it: [list(s)]. *)
Fixpoint chars (s : string) : list string :=
  match s with
  | EmptyString => []
  | String ch rest =>
      match rest with
      | String ch' _ =>
          if is_continuation ch' then
            match chars rest with
            | c :: cs => String ch c :: cs
            | [] => [String ch EmptyString]
            end
          else String ch EmptyString :: chars rest
      | EmptyString => [String ch EmptyString]
      end
  end.

(** [swap] put behind every character of [content]. *)
Fixpoint after_each (swap content : string) : string :=
  match content with
  | EmptyString => EmptyString
  | String ch rest =>
      String ch
        match rest with
        | String ch' _ =>
            if is_continuation ch' then after_each swap rest
            else swap +:+ after_each swap rest
        | EmptyString => swap
        end
  end.

(** [str.replace] with an empty [target]: [swap] goes before every
    character and after the last one, ['abc'.replace('', '-') == '-a-b-c-']. *)
Definition interleave (swap content : string) : string :=
  swap +:+ after_each swap content.

(** [content.replace(target, swap)]. *)
Definition replace (content target swap : string) : string :=
  match target with
  | EmptyString => interleave swap content
  | String _ _ => replace_scan target swap 0 content
  end.

(** [ch.lower()] on one character (ASCII letters; other characters are
    left as they are). *)
Definition lower_char (ch : ascii) : ascii :=
  let n := nat_of_ascii ch in
  if (65 <=? n)%nat && (n <=? 90)%nat then ascii_of_nat (n + 32) else ch.

(** [s.lower()]. *)
Fixpoint lower (s : string) : string :=
  match s with
  | EmptyString => EmptyString
  | String ch rest => String (lower_char ch) (lower rest)
  end.

(** [sep.join(parts)]. *)
Fixpoint join (sep : string) (parts : list string) : string :=
  match parts with
  | [] => ""
  | [p] => p
  | p :: ps => p +:+ sep +:+ join sep ps
  end.

(** Truth value of a string: [if s:] holds for the non-empty ones. *)
Definition truthy (s : string) : bool :=
  match s with EmptyString => false | String _ _ => true end.

(** Truth value of an optional string ([None] or a [str]). *)
Definition truthy_opt (o : option string) : bool :=
  match o with None => false | Some s => truthy s end.

(** [t] occurs in [c]: [c] is [pre ++ t ++ post]. *)
Definition occurs (t c : string) : Prop :=
  ∃ pre post, c = pre +:+ t +:+ post.

End Str.

(** ** Content transform *)

(** [edit_file_content(content, target, swap, prepend=None, append=None)]. *)
Definition edit_file_content (content target swap : string)
    (prepend append : option string) : string :=
  (* Replace target with swap *)
  let modified_content := Str.replace content target swap in
  (* Prepend text if specified *)
  let modified_content :=
    match prepend with
    | Some p => if Str.truthy p then p +:+ modified_content else modified_content
    | None => modified_content
    end in
  (* Append text if specified *)
  let modified_content :=
    match append with
    | Some a => if Str.truthy a then modified_content +:+ a else modified_content
    | None => modified_content
    end in
  modified_content.

(** ** Exceptions, results and the operating-system interface *)

(** A Python exception of class [Exception]; the script only ever looks at
    [str(e)].  The operations below raise nothing else ([OSError],
    [UnicodeDecodeError], [ValueError], [EOFError] are all subclasses), which
    is what [except Exception] catches. *)
Inductive exn : Type := Exception (message : string).

(** [str(e)]. *)
Definition str_exn (e : exn) : string :=
  match e with Exception message => message end.

Inductive result (A : Type) : Type :=
| Ok (a : A)
| Raise (e : exn).
Arguments Ok {A} a.
Arguments Raise {A} e.

Definition is_ok {A} (r : result A) : bool :=
  match r with Ok _ => true | Raise _ => false end.

(** What the script asks of the operating system and of the standard
    library.  [W] is the state of the machine outside the process (files,
    directories, clock).  Queries read it, the three file operations may
    change it, also when they fail (a file truncated by a failed write). *)
Class OS (W : Type) : Type := {
  (** [Path(p).exists()]: it raises the [OSError] of the underlying [stat]
      unless that says that the path is not there. *)
  path_exists : string → W → result bool;
  (** [Path(p).is_dir()], raising like [exists()]. *)
  path_is_dir : string → W → result bool;
  (** [[str(f) for f in Path(p).glob(pattern)]] *)
  path_glob : string → string → W → result (list string);
  (** [with open(p, 'r', encoding='utf-8') as file: file.read()] *)
  open_read : string → W → result string * W;
  (** [with open(p, 'w', encoding='utf-8') as file: file.write(data)] *)
  open_write : string → string → W → result () * W;
  (** [os.makedirs(p, exist_ok=True)] *)
  os_makedirs : string → W → result () * W;
  (** [os.path.relpath(p, start)]; the working directory it consults is the
      one the process was started in, the script never changes it. *)
  os_path_relpath : string → string → result string;
  (** [os.path.dirname(p)] *)
  os_path_dirname : string → string;
  (** [os.path.join(a, b)] *)
  os_path_join : string → string → string;
  (** [datetime.datetime.now().strftime("%Y%m%d_%H%M%S")] *)
  now_strftime : W → string;
  (** [str(datetime.datetime.now())] *)
  now_str : W → string;
  (** [str(sys.exc_info())] while the exception [e] is being handled *)
  exc_info_str : exn → W → string
}.

(** A file operation the process performed, with its arguments and outcome. *)
Inductive syscall : Type :=
| SysRead (file_path : string) (outcome : result string)
| SysMakedirs (directory : string) (outcome : result ())
| SysWrite (file_path data : string) (outcome : result ()).

(** The state a run threads through: the machine, the lines still to be read
    from standard input, the chunks written to standard output so far, and
    the file operations performed so far. *)
Record World (W : Type) : Type := mkWorld {
  os : W;
  stdin : list string;
  stdout : list string;
  calls : list syscall
}.
Arguments mkWorld {W} os stdin stdout calls.
Arguments os {W} w.
Arguments stdin {W} w.
Arguments stdout {W} w.
Arguments calls {W} w.

(** ** The monad of the script: state with exceptions *)

Definition M (W A : Type) : Type := World W → result A * World W.

#[global] Instance M_ret {W} : MRet (M W) :=
  λ A a w, (Ok a, w).

#[global] Instance M_bind {W} : MBind (M W) :=
  λ A B k m w,
    match m w with
    | (Ok a, w') => k a w'
    | (Raise e, w') => (Raise e, w')
    end.

Definition newline : string := String "010"%char "".

Section Script.
Context {W : Type} `{!OS W}.

(** [raise e] *)
Definition raise {A} (e : exn) : M W A :=
  λ w, (Raise e, w).

(** [try: body / except Exception as e: handler e] *)
Definition try_except {A} (body : M W A) (handler : exn → M W A) : M W A :=
  λ w,
    match body w with
    | (Ok a, w') => (Ok a, w')
    | (Raise e, w') => handler e w'
    end.

(** [for x in xs: s = body x s] *)
Fixpoint for_in {A S} (xs : list A) (body : A → S → M W S) (s : S) : M W S :=
  match xs with
  | [] => mret s
  | x :: xs' => s' ← body x s; for_in xs' body s'
  end.

Definition write_stdout (chunk : string) (w : World W) : World W :=
  mkWorld (os w) (stdin w) (stdout w ++ [chunk]) (calls w).

Definition record_call (c : syscall) (o : W) (w : World W) : World W :=
  mkWorld o (stdin w) (stdout w) (calls w ++ [c]).

(** [print(line)] *)
Definition print (line : string) : M W () :=
  λ w, (Ok (), write_stdout (line +:+ newline) w).

(** [open(file_path, 'r', encoding='utf-8')] and [file.read()] *)
Definition read_text (file_path : string) : M W string :=
  λ w, let r := open_read file_path (os w) in
       (r.1, record_call (SysRead file_path r.1) r.2 w).

(** [open(file_path, 'w', encoding='utf-8')] and [file.write(data)] *)
Definition write_text (file_path data : string) : M W () :=
  λ w, let r := open_write file_path data (os w) in
       (r.1, record_call (SysWrite file_path data r.1) r.2 w).

(** [os.makedirs(directory, exist_ok=True)] *)
Definition makedirs (directory : string) : M W () :=
  λ w, let r := os_makedirs directory (os w) in
       (r.1, record_call (SysMakedirs directory r.1) r.2 w).

(** [os.path.relpath(p, start)] *)
Definition relpath (p start : string) : M W string :=
  λ w, (os_path_relpath p start, w).

(** [xs[i]] *)
Definition index {A} (xs : list A) (i : nat) : M W A :=
  match xs !! i with
  | Some x => mret x
  | None => raise (Exception "list index out of range")
  end.

(** *** File discovery *)

(** A question to the machine that leaves it as it is. *)
Definition ask {A} (question : W → result A) : M W A :=
  λ w, (question (os w), w).

(** [scan_directory(directory, recursive=False)] *)
Definition scan_directory (directory : string) (recursive : bool) : M W (list string) :=
  let txt_files := [] in
  (* not directory_path.exists() or not directory_path.is_dir() *)
  missing ← (found ← ask (path_exists directory);
             if negb found then mret true
             else is_dir ← ask (path_is_dir directory); mret (negb is_dir));
  if missing : bool then mret txt_files
  else
    (* Define the pattern to search for .txt files *)
    let pattern := if recursive then "**/*.txt" else "*.txt" in
    (* Use pathlib's glob functionality to find all .txt files *)
    ask (path_glob directory pattern).

(** *** Batch runner *)

(** The body of the [try] block of [process_files], for one [file_path]. *)
Definition process_file (files : list string) (target swap : string)
    (prepend append output_dir : option string) (file_path : string) : M W () :=
  (* Read the original content *)
  content ← read_text file_path;
  (* Apply the edits *)
  let modified_content := edit_file_content content target swap prepend append in
  (* Determine where to write the modified content *)
  if Str.truthy_opt output_dir then
    (* Extract the relative path from the source directory *)
    first ← index files 0;
    rel_path ← relpath file_path (os_path_dirname first);
    let dest_path := os_path_join (default "" output_dir) rel_path in
    (* Create directory structure if it doesn't exist *)
    makedirs (os_path_dirname dest_path);;
    (* Write to new location *)
    write_text dest_path modified_content
  else
    (* Write in-place *)
    write_text file_path modified_content.

(** The line the [except] branch appends to the error log. *)
Definition error_entry (file_path : string) (e : exn) : string :=
  "Error processing " +:+ file_path +:+ ": " +:+ str_exn e.

(** One iteration of the loop of [process_files] on the three
    accumulators [(success_count, error_count, error_log)]. *)
Definition process_step (files : list string) (target swap : string)
    (prepend append output_dir : option string) (file_path : string)
    (acc : nat * nat * list string) : M W (nat * nat * list string) :=
  let '(success_count, error_count, error_log) := acc in
  try_except
    (process_file files target swap prepend append output_dir file_path;;
     mret (S success_count, error_count, error_log))
    (λ e, mret (success_count, S error_count,
                error_log ++ [error_entry file_path e])).

(** [process_files(files, target, swap, prepend=None, append=None,
    output_dir=None)], returning
    [(success_count, error_count, error_log)]. *)
Definition process_files (files : list string) (target swap : string)
    (prepend append output_dir : option string) : M W (nat * nat * list string) :=
  for_in files (process_step files target swap prepend append output_dir) (0, 0, []).

(** *** Interactive confirmation *)

Definition confirm_prompt : string :=
  newline +:+ "Proceed with editing these files? (y/n): ".

(** The [while True] loop of [confirm_operation].  [pending] is what is
    left on standard input: each [input()] writes the prompt and takes one
    line, and raises [EOFError] at the end of input. *)
Fixpoint confirm_loop (pending : list string) (w : World W) : result bool * World W :=
  match pending with
  | [] =>
      (Raise (Exception "EOF when reading a line"),
       write_stdout confirm_prompt (mkWorld (os w) [] (stdout w) (calls w)))
  | line :: pending' =>
      let w1 := write_stdout confirm_prompt
                  (mkWorld (os w) pending' (stdout w) (calls w)) in
      let response := Str.lower line in
      if bool_decide (response ∈ ["y"; "yes"]) then (Ok true, w1)
      else if bool_decide (response ∈ ["n"; "no"]) then (Ok false, w1)
      else confirm_loop pending'
             (write_stdout ("Please answer with 'y' or 'n'" +:+ newline) w1)
  end.

Definition confirm_answer : M W bool :=
  λ w, confirm_loop (stdin w) w.

(** [confirm_operation(files)] *)
Definition confirm_operation (files : list string) : M W bool :=
  print (newline +:+ "Found " +:+ pretty (length files) +:+ " .txt files to process:");;
  (* Show a sample of files (first 10) *)
  for_in (take 10 files) (λ file_path _, print ("  - " +:+ file_path)) ();;
  (if bool_decide (10 < length files)
   then print ("  ... and " +:+ pretty (length files - 10) +:+ " more files")
   else mret ());;
  confirm_answer.

(** *** Main *)

(** The namespace [parse_arguments()] returns. *)
Record Args : Type := mkArgs {
  args_path : string;
  args_target : string;
  args_swap : string;
  args_prepend : option string;
  args_append : option string;
  args_recursive : bool;
  args_output : option string
}.

(** [setup_logging()] *)
Definition setup_logging : M W string :=
  λ w, let timestamp := now_strftime (os w) in
       (Ok ("caption_edit_log_" +:+ timestamp +:+ ".txt"), w).

Fixpoint repeat_str (s : string) (n : nat) : string :=
  match n with
  | O => ""
  | S n' => s +:+ repeat_str s n'
  end.

Fixpoint concat_lines (lines : list string) : string :=
  match lines with
  | [] => ""
  | l :: ls => (l +:+ newline) +:+ concat_lines ls
  end.

(** The header both log writers start with. *)
Definition log_header (w : World W) : string :=
  ("Caption Edit Log - " +:+ now_str (os w) +:+ newline)
  +:+ (repeat_str "=" 50 +:+ newline +:+ newline).

(** Write errors to log file *)
Definition write_error_log (log_filename : string) (error_log : list string) : M W () :=
  λ w, write_text log_filename (log_header w +:+ concat_lines error_log) w.

(** The log written by the outer [except] branch of [main]. *)
Definition write_fatal_log (log_filename : string) (e : exn) : M W () :=
  λ w, write_text log_filename
         (log_header w
          +:+ ("Fatal error: " +:+ str_exn e +:+ newline)
          +:+ ("Traceback: " +:+ exc_info_str e (os w) +:+ newline)) w.

(** [main()], after [parse_arguments()] has produced [args]. *)
Definition main (args : Args) : M W () :=
  (* Set up logging *)
  log_filename ← setup_logging;
  try_except
    ((* Scan directory for .txt files *)
     txt_files ← scan_directory (args_path args) (args_recursive args);
     if bool_decide (txt_files = []) then
       print ("No .txt files found in " +:+ args_path args +:+
              (if args_recursive args then " and its subdirectories" else ""))
     else
       (* Ask for confirmation *)
       confirmed ← confirm_operation txt_files;
       if negb confirmed then
         print "Operation cancelled by user."
       else
         (* Process the files *)
         '(success_count, error_count, error_log) ←
           process_files txt_files (args_target args) (args_swap args)
             (args_prepend args) (args_append args) (args_output args);
         (* Print summary *)
         print (newline +:+ "Operation complete!");;
         print ("Successfully processed: " +:+ pretty success_count +:+ " files");;
         if bool_decide (0 < error_count) then
           print ("Errors encountered: " +:+ pretty error_count +:+ " files");;
           print ("See " +:+ log_filename +:+ " for details");;
           write_error_log log_filename error_log
         else mret ())
    (λ e,
       (* Handle any unexpected errors *)
       print ("An error occurred: " +:+ str_exn e);;
       write_fatal_log log_filename e).

End Script.

(** ** UTF-8 *)

Module Utf8.

Definition between (lo hi : nat) (ch : ascii) : bool :=
  let n := nat_of_ascii ch in
  (lo <=? n)%nat && (n <=? hi)%nat.

(** Are the bytes [s] the UTF-8 form of a text?  This is what the strict
    [utf-8] codec accepts when decoding, and the form of every [str] it can
    encode. *)
Fixpoint valid (s : string) : bool :=
  match s with
  | EmptyString => true
  | String b0 s1 =>
      if between 0 127 b0 then valid s1
      else
        match s1 with
        | EmptyString => false
        | String b1 s2 =>
            if between 194 223 b0 then between 128 191 b1 && valid s2
            else
              match s2 with
              | EmptyString => false
              | String b2 s3 =>
                  if between 224 239 b0 then
                    (if between 224 224 b0 then between 160 191 b1
                     else if between 237 237 b0 then between 128 159 b1
                     else between 128 191 b1)
                    && between 128 191 b2 && valid s3
                  else
                    match s3 with
                    | EmptyString => false
                    | String b3 s4 =>
                        between 240 244 b0
                        && (if between 240 240 b0 then between 144 191 b1
                            else if between 244 244 b0 then between 128 143 b1
                            else between 128 191 b1)
                        && between 128 191 b2 && between 128 191 b3 && valid s4
                    end
              end
        end
  end.

(** What reading in text mode makes of line ends: [\r\n] and [\r] become
    [\n]. *)
Fixpoint universal_newlines (s : string) : string :=
  match s with
  | EmptyString => EmptyString
  | String ch rest =>
      if decide (ch = "013"%char) then
        String "010"%char
          match rest with
          | String ch' rest' =>
              if decide (ch' = "010"%char) then universal_newlines rest'
              else universal_newlines rest
          | EmptyString => EmptyString
          end
      else String ch (universal_newlines rest)
  end.

End Utf8.

(** ** An executable POSIX-like machine

    Files and directories are kept in a finite map from absolute paths, given
    as lists of names, to nodes; the root [[]] is always a directory.  A file
    is its bytes.  Names are limited to 255 bytes and paths to 4095.  There
    are no symbolic links and no permissions.  The functions follow
    [posixpath], [os], [io] and [pathlib] of Python 3.11 on such a machine. *)

Module Posix.

Inductive node : Type :=
| File (data : string)
| Dir.

Record machine : Type := mkMachine {
  tree : gmap (list string) node;
  clock_stamp : string;
  clock_text : string;
  (** how the interpreter prints [sys.exc_info()] for an exception *)
  exc_info : exn → string;
  (** the [UnicodeDecodeError] for bytes that are not UTF-8, and the
      [UnicodeEncodeError] for a text that cannot be encoded *)
  decode_error : string → exn;
  encode_error : string → exn
}.

(** Machine [m] with the tree [t]. *)
Definition with_tree (m : machine) (t : gmap (list string) node) : machine :=
  mkMachine t (clock_stamp m) (clock_text m) (exc_info m)
    (decode_error m) (encode_error m).

Inductive errno : Type := ENOENT | ENOTDIR | EISDIR | EEXIST | ENAMETOOLONG.

(** [str(e)] of the [OSError] for [code] on path [p]. *)
Definition os_error (code : errno) (p : string) : exn :=
  Exception
    ((match code with
      | ENOENT => "[Errno 2] No such file or directory: '"
      | ENOTDIR => "[Errno 20] Not a directory: '"
      | EISDIR => "[Errno 21] Is a directory: '"
      | EEXIST => "[Errno 17] File exists: '"
      | ENAMETOOLONG => "[Errno 36] File name too long: '"
      end) +:+ p +:+ "'").

Definition NAME_MAX : nat := 255.
Definition PATH_MAX : nat := 4096.

(** [s.split(sep)] for a one-character separator. *)
Fixpoint split (sep : ascii) (s : string) : list string :=
  match s with
  | EmptyString => [""]
  | String ch rest =>
      if decide (ch = sep) then "" :: split sep rest
      else match split sep rest with
           | [] => [String ch ""]
           | p :: ps => String ch p :: ps
           end
  end.

Definition slash : ascii := "/"%char.

(** [p.startswith('/')] *)
Definition is_abs (p : string) : bool :=
  match p with
  | String ch _ => bool_decide (ch = slash)
  | EmptyString => false
  end.

(** A name that stands for the directory it is looked up in. *)
Definition is_here (name : string) : bool :=
  bool_decide (name = "") || bool_decide (name = ".").

(** The node at an absolute path. *)
Definition node_at (t : gmap (list string) node) (key : list string) : option node :=
  match key with
  | [] => Some Dir
  | _ => t !! key
  end.

Definition dir_at (t : gmap (list string) node) (key : list string) : bool :=
  match node_at t key with
  | Some Dir => true
  | _ => false
  end.

(** Resolve the names [names] one after the other from directory [cur], as
    the kernel does: every name is looked up in a directory. *)
Fixpoint walk (t : gmap (list string) node) (cur names : list string)
    : errno + list string :=
  match names with
  | [] => inr cur
  | name :: names' =>
      match node_at t cur with
      | Some Dir =>
          if is_here name then walk t cur names'
          else if bool_decide (name = "..") then walk t (removelast cur) names'
          else if (NAME_MAX <? String.length name)%nat then inl ENAMETOOLONG
          else walk t (cur ++ [name]) names'
      | Some (File _) => inl ENOTDIR
      | None => inl ENOENT
      end
  end.

(** [s.lstrip('/')] and [s.rstrip('/')] *)
Fixpoint lstrip (s : string) : string :=
  match s with
  | String ch rest => if decide (ch = slash) then lstrip rest else s
  | EmptyString => EmptyString
  end.

Definition rstrip (s : string) : string :=
  String.rev (lstrip (String.rev s)).

(** [os.path.dirname(p)]: everything up to the last slash, without its
    trailing slashes unless it consists of slashes only. *)
Definition dirname (p : string) : string :=
  match split slash p with
  | [] | [_] => ""
  | parts =>
      let head := Str.join "/" (removelast parts) +:+ "/" in
      if bool_decide (lstrip head = "") then head else rstrip head
  end.

(** [os.path.join(a, b)] *)
Definition join (a b : string) : string :=
  if is_abs b then b
  else if negb (Str.truthy a) || Str.endswith "/" a then a +:+ b
  else a +:+ "/" +:+ b.

(** The names of [os.path.normpath]: empty names and [.] dropped, [..]
    cancelling the name before it, on top of the names [stack]. *)
Fixpoint normparts (stack names : list string) : list string :=
  match names with
  | [] => stack
  | name :: names' =>
      if is_here name then normparts stack names'
      else if bool_decide (name = "..") then normparts (removelast stack) names'
      else normparts (stack ++ [name]) names'
  end.

(** Length of the common prefix of two lists of names. *)
Fixpoint common (xs ys : list string) : nat :=
  match xs, ys with
  | x :: xs', y :: ys' => if decide (x = y) then S (common xs' ys') else 0
  | _, _ => 0
  end.

(** [Some rest] when [key = base ++ rest]. *)
Fixpoint below (base key : list string) : option (list string) :=
  match base, key with
  | [], _ => Some key
  | b :: base', k :: key' => if decide (b = k) then below base' key' else None
  | _ :: _, [] => None
  end.

(** [fnmatch] of a file name against a pattern of literal characters, [*]
    and [?]. *)
Fixpoint fnmatch (pat name : string) : bool :=
  match pat with
  | EmptyString => bool_decide (name = "")
  | String p pat' =>
      if decide (p = "*"%char) then
        (fix star (name : string) : bool :=
           fnmatch pat' name ||
           match name with
           | EmptyString => false
           | String _ name' => star name'
           end) name
      else
        match name with
        | EmptyString => false
        | String ch name' =>
            (bool_decide (p = "?"%char) || bool_decide (p = ch)) && fnmatch pat' name'
        end
  end.

(** All nodes from [base] to [base ++ rel], the last one excluded, are
    directories. *)
Definition reachable (t : gmap (list string) node) (base rel : list string) : bool :=
  forallb (λ n, dir_at t (base ++ take n rel)) (seq 0 (length rel)).

(** One step of a glob.  [found] are the paths selected so far, relative to
    [base]; the result are the paths the pattern segment [seg] selects
    from them.  [**] selects the directories found and every directory
    below them; any other segment selects the entries of the directories
    found whose name matches, of any kind when the segment is the [last]
    one and directories otherwise. *)
Definition select (t : gmap (list string) node) (base : list string)
    (seg : string) (last : bool) (found : list (list string)) : list (list string) :=
  rels ← found;
  if bool_decide (seg = "**") then
    rels :: omap (λ kv : list string * node,
                    rel ← below (base ++ rels) kv.1;
                    if negb (bool_decide (rel = [])) && dir_at t kv.1
                       && reachable t (base ++ rels) rel
                    then Some (rels ++ rel) else None)
              (map_to_list t)
  else
    omap (λ kv : list string * node,
            match below (base ++ rels) kv.1 with
            | Some [name] =>
                if fnmatch seg name && (last || dir_at t kv.1)
                then Some (rels ++ [name]) else None
            | _ => None
            end)
         (map_to_list t).

Fixpoint select_all (t : gmap (list string) node) (base : list string)
    (segs : list string) (found : list (list string)) : list (list string) :=
  match segs with
  | [] => found
  | seg :: segs' =>
      select_all t base segs' (select t base seg (bool_decide (segs' = [])) found)
  end.

(** The names up to and including the first one of [names] that is the name
    of an entry. *)
Fixpoint to_next_entry (names : list string) : list string :=
  match names with
  | [] => []
  | name :: names' => if is_here name then name :: to_next_entry names' else [name]
  end.

(** [os.makedirs] along [names] from directory [cur]: directories that exist
    are entered, missing ones are created; a file in the way is an error,
    raised for the first directory that could not be made.  [seen] are the
    names gone through so far. *)
Fixpoint mkdirs (t : gmap (list string) node) (cur seen names : list string)
    : result () * gmap (list string) node :=
  match names with
  | [] => (Ok (), t)
  | name :: names' =>
      let seen' := seen ++ [name] in
      if is_here name then mkdirs t cur seen' names'
      else if bool_decide (name = "..") then mkdirs t (removelast cur) seen' names'
      else if (NAME_MAX <? String.length name)%nat then
        (Raise (os_error ENAMETOOLONG (Str.join "/" seen')), t)
      else
        let key := cur ++ [name] in
        match node_at t key with
        | Some Dir => mkdirs t key seen' names'
        | Some (File _) =>
            (Raise (if forallb is_here names'
                    then os_error EEXIST (Str.join "/" (seen' ++ names'))
                    else os_error ENOTDIR (Str.join "/" (seen' ++ to_next_entry names'))),
             t)
        | None => mkdirs (<[key := Dir]> t) key seen' names'
        end
  end.

(** The root of [Path(p)]: two leading slashes are kept, more than two are
    one. *)
Definition root (p : string) : string :=
  match p with
  | String a rest =>
      if bool_decide (a = slash) then
        match rest with
        | String b rest' =>
            if bool_decide (b = slash) && negb (is_abs rest') then "//" else "/"
        | EmptyString => "/"
        end
      else ""
  | EmptyString => ""
  end.

(** The names [pathlib] keeps of [Path(p)]: empty names and [.] are
    dropped, [..] stays. *)
Definition pure_parts (p : string) : list string :=
  filter (λ name, is_here name = false) (split slash p).

(** [str(Path(p) / n1 / ... / nk)] *)
Definition path_str (p : string) (more : list string) : string :=
  match (pure_parts p ++ more)%list with
  | [] => if is_abs p then root p else "."
  | names => root p +:+ Str.join "/" names
  end.

Section At.
(** The working directory of the process, an absolute path. *)
Variable cwd : list string.

Definition origin (p : string) : list string :=
  if is_abs p then [] else cwd.

(** Names of the absolute, normalised form of [p]: [abspath(p)]. *)
Definition abspath (p : string) : list string :=
  normparts (origin p) (split slash p).

(** Where the kernel finds [p]. *)
Definition locate (t : gmap (list string) node) (p : string) : errno + list string :=
  if bool_decide (p = "") then inl ENOENT
  else if (PATH_MAX <=? String.length p)%nat then inl ENAMETOOLONG
  else walk t (origin p) (split slash p).

(** Where [Path(p)] points: the kernel is given [str(Path(p))]. *)
Definition locate_path (t : gmap (list string) node) (p : string) : errno + list string :=
  locate t (path_str p []).

(** [Path(p).stat()] *)
Definition stat (t : gmap (list string) node) (p : string) : errno + node :=
  match locate_path t p with
  | inr key =>
      match node_at t key with
      | Some n => inr n
      | None => inl ENOENT
      end
  | inl code => inl code
  end.

(** The errors of [stat] that [exists()] and [is_dir()] take for an
    answer. *)
Definition ignored (code : errno) : bool :=
  match code with
  | ENOENT | ENOTDIR => true
  | _ => false
  end.

(** [Path(p).exists()] *)
Definition exists_ (p : string) (m : machine) : result bool :=
  match stat (tree m) p with
  | inr _ => Ok true
  | inl code => if ignored code then Ok false else Raise (os_error code (path_str p []))
  end.

(** [Path(p).is_dir()] *)
Definition is_dir (p : string) (m : machine) : result bool :=
  match stat (tree m) p with
  | inr Dir => Ok true
  | inr (File _) => Ok false
  | inl code => if ignored code then Ok false else Raise (os_error code (path_str p []))
  end.

(** [[str(f) for f in Path(p).glob(pattern)]] *)
Definition glob (p pattern : string) (m : machine) : result (list string) :=
  if bool_decide (pattern = "") then
    Raise (Exception "Unacceptable pattern: ''")
  else if is_abs pattern then
    Raise (Exception "Non-relative patterns are unsupported")
  else
    match locate_path (tree m) p with
    | inr base =>
        if dir_at (tree m) base then
          Ok (path_str p <$>
                remove_dups (select_all (tree m) base
                               (filter (λ seg, is_here seg = false) (split slash pattern))
                               [[]]))
        else Ok []
    | inl _ => Ok []
    end.

(** [open(p, 'r', encoding='utf-8')] and [read()]: the bytes are decoded
    and the line ends translated. *)
Definition read (p : string) (m : machine) : result string * machine :=
  match locate (tree m) p with
  | inr key =>
      match node_at (tree m) key with
      | Some (File data) =>
          if Utf8.valid data then (Ok (Utf8.universal_newlines data), m)
          else (Raise (decode_error m data), m)
      | Some Dir => (Raise (os_error EISDIR p), m)
      | None => (Raise (os_error ENOENT p), m)
      end
  | inl code => (Raise (os_error code p), m)
  end.

(** [open(p, 'w', encoding='utf-8')] and [write(data)]: opening creates the
    file or empties it; a text that cannot be encoded is not written, and
    the file stays empty. *)
Definition write (p data : string) (m : machine) : result () * machine :=
  match locate (tree m) p with
  | inr key =>
      match node_at (tree m) key with
      | Some Dir => (Raise (os_error EISDIR p), m)
      | _ =>
          if Utf8.valid data then (Ok (), with_tree m (<[key := File data]> (tree m)))
          else (Raise (encode_error m data), with_tree m (<[key := File ""]> (tree m)))
      end
  | inl code => (Raise (os_error code p), m)
  end.

(** [os.makedirs(p, exist_ok=True)] *)
Definition makedirs (p : string) (m : machine) : result () * machine :=
  if bool_decide (p = "") then (Raise (os_error ENOENT p), m)
  else if (PATH_MAX <=? String.length p)%nat then (Raise (os_error ENAMETOOLONG p), m)
  else
    let r := mkdirs (tree m) (origin p) [] (split slash p) in
    (r.1, with_tree m r.2).

(** [os.path.relpath(p, start)] *)
Definition relpath (p start : string) : result string :=
  if bool_decide (p = "") then Raise (Exception "no path specified")
  else
    let start_list := abspath start in
    let path_list := abspath p in
    let i := common start_list path_list in
    let rel_list := replicate (length start_list - i) ".." ++ drop i path_list in
    if bool_decide (rel_list = []) then Ok "." else Ok (Str.join "/" rel_list).

Definition os_at : OS machine := {|
  path_exists := exists_;
  path_is_dir := is_dir;
  path_glob := glob;
  open_read := read;
  open_write := write;
  os_makedirs := makedirs;
  os_path_relpath := relpath;
  os_path_dirname := dirname;
  os_path_join := join;
  now_strftime := clock_stamp;
  now_str := clock_text;
  exc_info_str := λ e m, exc_info m e
|}.
End At.

(** A machine built from a list of nodes, with a clock and an interpreter
    of its own: the texts it has for [sys.exc_info()] and for the errors of
    the codec are particular to it. *)
Definition machine_of (nodes : list (list string * node)) : machine :=
  mkMachine (list_to_map nodes) "20240101_120000" "2024-01-01 12:00:00.000000"
    (λ e, "(<class 'OSError'>, OSError('" +:+ str_exn e +:+ "'), <traceback object>)")
    (λ _, Exception "'utf-8' codec can't decode byte 0xff in position 0: invalid start byte")
    (λ _, Exception
            "'utf-8' codec can't encode character '\udcff' in position 0: surrogates not allowed").

(** A fresh run on machine [m], with [input] on standard input. *)
Definition boot (m : machine) (input : list string) : World machine :=
  mkWorld m input [] [].

End Posix.

(** The machine whose process runs in the root directory. *)
#[global] Instance root_os : OS Posix.machine := Posix.os_at [].

(** A directory [d] with three files, a subdirectory and a directory whose
    name ends in [.txt]. *)
Definition demo : Posix.machine :=
  Posix.machine_of
    [ (["d"], Posix.Dir);
      (["d"; "a.txt"], Posix.File "hello world");
      (["d"; "b.txt"], Posix.File "world");
      (["d"; "c.log"], Posix.File "log");
      (["d"; "sub"], Posix.Dir);
      (["d"; "sub"; "e.txt"], Posix.File "deep");
      (["d"; "dir.txt"], Posix.Dir) ].

(** A directory [d] holding [a.txt], [b.txt] and [c.log]. *)
Definition plain : Posix.machine :=
  Posix.machine_of
    [ (["d"], Posix.Dir);
      (["d"; "a.txt"], Posix.File "hello world");
      (["d"; "b.txt"], Posix.File "world");
      (["d"; "c.log"], Posix.File "log") ].

(** A directory [notes] holding [note.txt]. *)
Definition notes : Posix.machine :=
  Posix.machine_of
    [ (["notes"], Posix.Dir);
      (["notes"; "note.txt"], Posix.File "hello world") ].

(** ** Specification-side notions *)

(** The first occurrence of [t] in [c] is the one after [pre]:
    [c = pre ++ t ++ post], and no occurrence of [t] in [c] starts earlier. *)
Definition first_occurrence (t c pre post : string) : Prop :=
  c = pre +:+ t +:+ post ∧
  ∀ pre' post', c = pre' +:+ t +:+ post' → String.length pre ≤ String.length pre'.

(** Replacing every non-overlapping occurrence of [t] by [s], scanning left
    to right, in the words of the specification: a content without an
    occurrence stays as it is; otherwise the first occurrence is replaced
    and the scan goes on behind it. *)
Inductive replaces_left_to_right (t s : string) : string → string → Prop :=
| scan_done c :
    ¬ Str.occurs t c →
    replaces_left_to_right t s c c
| scan_hit c pre post r :
    first_occurrence t c pre post →
    replaces_left_to_right t s post r →
    replaces_left_to_right t s c (pre +:+ s +:+ r).

(** The batch runner in the words of the specification: the files are
    taken one after the other, each is read, transformed and written on the
    machine as the previous one left it, whatever became of the previous
    one, and its outcome is noted with its path. *)
Section Batch.
Context {W : Type} `{!OS W}.

Fixpoint outcomes (files : list string) (target swap : string)
    (prepend append output_dir : option string) (todo : list string) (w : World W)
    : list (string * result ()) * World W :=
  match todo with
  | [] => ([], w)
  | file_path :: todo' =>
      let r := process_file files target swap prepend append output_dir file_path w in
      let rs := outcomes files target swap prepend append output_dir todo' r.2 in
      ((file_path, r.1) :: rs.1, rs.2)
  end.

(** Number of files that went through. *)
Definition succeeded (run : list (string * result ())) : nat :=
  length (filter (λ o, is_ok o.2 = true) run).

(** Number of files that failed. *)
Definition failed (run : list (string * result ())) : nat :=
  length (filter (λ o, is_ok o.2 = false) run).

(** One log entry per failed file, in the order of the files. *)
Definition failure_entries (run : list (string * result ())) : list string :=
  omap (λ o, match o.2 with
             | Raise e => Some (error_entry o.1 e)
             | Ok _ => None
             end) run.

(** The file operations of one file of an in-place run: the file is read
    and, if that went well, the transformed content is written to the very
    same path. *)
Inductive in_place_ops (target swap : string) (prepend append : option string)
    (file_path : string) : list syscall → Prop :=
| in_place_unread e :
    in_place_ops target swap prepend append file_path
      [SysRead file_path (Raise e)]
| in_place_written content outcome :
    in_place_ops target swap prepend append file_path
      [SysRead file_path (Ok content);
       SysWrite file_path (edit_file_content content target swap prepend append) outcome].

(** The file operations of one file of a run with output root [out] and
    anchor directory [anchor]: the file is read, the directory of the
    destination [out / relpath(file_path, anchor)] is created, and the
    transformed content is written to the destination; a step that fails
    ends the sequence. *)
Inductive mirrored_ops (target swap : string) (prepend append : option string)
    (out anchor file_path : string) : list syscall → Prop :=
| mirrored_unread e :
    mirrored_ops target swap prepend append out anchor file_path
      [SysRead file_path (Raise e)]
| mirrored_unresolved content e :
    os_path_relpath file_path anchor = Raise e →
    mirrored_ops target swap prepend append out anchor file_path
      [SysRead file_path (Ok content)]
| mirrored_no_directory content rel_path e :
    os_path_relpath file_path anchor = Ok rel_path →
    mirrored_ops target swap prepend append out anchor file_path
      [SysRead file_path (Ok content);
       SysMakedirs (os_path_dirname (os_path_join out rel_path)) (Raise e)]
| mirrored_written content rel_path outcome :
    os_path_relpath file_path anchor = Ok rel_path →
    mirrored_ops target swap prepend append out anchor file_path
      [SysRead file_path (Ok content);
       SysMakedirs (os_path_dirname (os_path_join out rel_path)) (Ok ());
       SysWrite (os_path_join out rel_path)
         (edit_file_content content target swap prepend append) outcome].

(** Carrying out a file operation on machine [o]: the operation with the
    outcome it has there, and the machine it leaves. *)
Definition perform (c : syscall) (o : W) : syscall * W :=
  match c with
  | SysRead p _ => let r := open_read p o in (SysRead p r.1, r.2)
  | SysMakedirs d _ => let r := os_makedirs d o in (SysMakedirs d r.1, r.2)
  | SysWrite p data _ => let r := open_write p data o in (SysWrite p data r.1, r.2)
  end.

(** Carrying out the operations [ops] one after the other. *)
Fixpoint perform_all (ops : list syscall) (o : W) : list syscall * W :=
  match ops with
  | [] => ([], o)
  | c :: ops' =>
      let r := perform c o in
      let rs := perform_all ops' r.2 in
      (r.1 :: rs.1, rs.2)
  end.

(** An answer the confirmation accepts as a yes, as a no. *)
Definition affirmative (line : string) : Prop := Str.lower line ∈ ["y"; "yes"].
Definition negative (line : string) : Prop := Str.lower line ∈ ["n"; "no"].

(** The line an answer that is neither is met with. *)
Definition retry_line : string := "Please answer with 'y' or 'n'" +:+ newline.

(** The world after [chunks] went to standard output. *)
Definition written (chunks : list string) (w : World W) : World W :=
  mkWorld (os w) (stdin w) (stdout w ++ chunks) (calls w).

(** What [confirm_operation] writes before it asks: the number of files,
    the first ten paths, and the number of the files not shown. *)
Definition preview (files : list string) : list string :=
  [(newline +:+ "Found " +:+ pretty (length files) +:+ " .txt files to process:") +:+ newline]
  ++ ((λ file_path, ("  - " +:+ file_path) +:+ newline) <$> take 10 files)
  ++ (if bool_decide (10 < length files)
      then [("  ... and " +:+ pretty (length files - 10) +:+ " more files") +:+ newline]
      else []).
End Batch.

(** ** What a sequence of file operations did *)

(** The paths opened for reading, in order. *)
Definition reads (ops : list syscall) : list string :=
  omap (λ c, match c with SysRead file_path _ => Some file_path | _ => None end) ops.

Definition is_written (c : syscall) : bool :=
  match c with SysWrite _ _ (Ok _) => true | _ => false end.

(** Number of writes that went through. *)
Definition writes_done (ops : list syscall) : nat :=
  length (filter (λ c, is_written c = true) ops).

(** A machine on which the path of the log file is taken by a directory. *)
Definition blocked : Posix.machine :=
  Posix.machine_of
    [ (["d"], Posix.Dir);
      (["d"; "a.txt"], Posix.File "hello world");
      (["caption_edit_log_20240101_120000.txt"], Posix.Dir) ].

(** The machine of [root_os] with a directory listing that fails. *)
Definition unlisted_os : OS Posix.machine := {|
  path_exists := Posix.exists_ [];
  path_is_dir := Posix.is_dir [];
  path_glob := λ p _ _, Raise (Posix.os_error Posix.ENOENT p);
  open_read := Posix.read [];
  open_write := Posix.write [];
  os_makedirs := Posix.makedirs [];
  os_path_relpath := Posix.relpath [];
  os_path_dirname := Posix.dirname;
  os_path_join := Posix.join;
  now_strftime := Posix.clock_stamp;
  now_str := Posix.clock_text;
  exc_info_str := λ e m, Posix.exc_info m e
|}.

(** * Properties *)

Example dirname_ex1 : Posix.dirname "a/b/c.txt" = "a/b".
Proof. reflexivity. Qed.
Example dirname_ex2 : Posix.dirname "/c.txt" = "/".
Proof. reflexivity. Qed.
Example dirname_ex3 : Posix.dirname "c.txt" = "".
Proof. reflexivity. Qed.
Example join_ex1 : Posix.join "out" "sub/a.txt" = "out/sub/a.txt".
Proof. reflexivity. Qed.
Example join_ex2 : Posix.join "out/" "a.txt" = "out/a.txt".
Proof. reflexivity. Qed.
Example relpath_ex1 : Posix.relpath [] "d/sub/a.txt" "d" = Ok "sub/a.txt".
Proof. reflexivity. Qed.
Example relpath_ex2 : Posix.relpath ["home"] "d/a.txt" "d/sub" = Ok "../a.txt".
Proof. reflexivity. Qed.
Example relpath_ex3 : Posix.relpath ["home"] "a.txt" "" = Ok "a.txt".
Proof. reflexivity. Qed.
Example fnmatch_ex1 : Posix.fnmatch "*.txt" "a.txt" = true.
Proof. reflexivity. Qed.
Example fnmatch_ex2 : Posix.fnmatch "*.txt" "c.log" = false.
Proof. reflexivity. Qed.

Example replace_ex1 : Str.replace "abc" "" "-" = "-a-b-c-".
Proof. reflexivity. Qed.
Example replace_ex2 : Str.replace "aaaa" "aa" "b" = "bb".
Proof. reflexivity. Qed.
Example replace_ex3 : Str.replace "aaa" "aa" "b" = "ba".
Proof. reflexivity. Qed.
Example replace_ex4 : Str.replace "abb" "ab" "a" = "ab".
Proof. reflexivity. Qed.
Example lower_ex : Str.lower "YeS" = "yes".
Proof. reflexivity. Qed.
Example edit_ex : edit_file_content "hello world" "world" "there" (Some ">> ") None = ">> hello there".
Proof. reflexivity. Qed.


(** ** Strings *)

Section StrFacts.
Implicit Types (a b c t s pre post : string) (ch : ascii).

Lemma str_app_nil_r s : s +:+ "" = s.
Proof. induction s; simpl; congruence. Qed.

Lemma str_app_assoc a b c : (a +:+ b) +:+ c = a +:+ b +:+ c.
Proof. induction a; simpl; congruence. Qed.

Lemma str_length_app a b : String.length (a +:+ b) = String.length a + String.length b.
Proof. induction a; simpl; auto. Qed.

Lemma length_zero s : String.length s = 0 → s = "".
Proof. by destruct s. Qed.

Lemma str_app_inv_length a b a' b' :
  a +:+ b = a' +:+ b' → String.length a = String.length a' → a = a' ∧ b = b'.
Proof.
  revert a'. induction a as [|ch a IH]; intros [|ch' a']; simpl; try done.
  intros [= -> Heq] [= Hlen]. destruct (IH _ Heq Hlen) as [-> ->]. done.
Qed.

Lemma startswith_spec t c : Str.startswith t c = true ↔ ∃ rest, c = t +:+ rest.
Proof.
  revert c. induction t as [|a t IH]; intros c; simpl.
  - split; [intros _; by exists c | done].
  - destruct c as [|b c].
    + split; [done | by intros [rest [=]]].
    + case_decide as Hab.
      * subst b. rewrite IH. split; intros [rest Hr]; exists rest; congruence.
      * split; [done | intros [rest [= ? ?]]; done].
Qed.

Lemma startswith_app t rest : Str.startswith t (t +:+ rest) = true.
Proof. apply startswith_spec. by exists rest. Qed.

Lemma occurs_here t c : Str.startswith t c = true → Str.occurs t c.
Proof. intros [rest ->]%startswith_spec. by exists "", rest. Qed.

Lemma occurs_cons t ch c : Str.occurs t c → Str.occurs t (String ch c).
Proof. intros (pre & post & ->). by exists (String ch pre), post. Qed.

Lemma occurs_cons_inv t ch c :
  Str.occurs t (String ch c) → Str.startswith t (String ch c) = true ∨ Str.occurs t c.
Proof.
  intros ([|ch' pre] & post & Heq); simpl in Heq.
  - left. rewrite Heq. apply startswith_app.
  - right. injection Heq as _ ->. by exists pre, post.
Qed.

Lemma contains_spec t c : Str.contains t c = true ↔ Str.occurs t c.
Proof.
  induction c as [|ch c IH]; simpl.
  - rewrite orb_false_r. split; [apply occurs_here|].
    intros ([|??] & post & Heq); [|done]. simpl in Heq. rewrite Heq. apply startswith_app.
  - rewrite orb_true_iff, IH. split.
    + intros [?|?]; [by apply occurs_here | by apply occurs_cons].
    + apply occurs_cons_inv.
Qed.

Lemma occurs_length t c : Str.occurs t c → String.length t ≤ String.length c.
Proof. intros (pre & post & ->). rewrite !str_length_app. lia. Qed.

Lemma occurs_same_length t c :
  Str.occurs t c → String.length c ≤ String.length t → c = t.
Proof.
  intros (pre & post & ->). rewrite !str_length_app. intros Hlen.
  rewrite (length_zero pre), (length_zero post) by lia. simpl. apply str_app_nil_r.
Qed.

(** Every content in which [t] occurs has a first occurrence of it. *)
Lemma first_occurrence_exists t c :
  Str.occurs t c → ∃ pre post, first_occurrence t c pre post.
Proof.
  induction c as [|ch c IH]; intros Hocc.
  - destruct Hocc as (pre & post & Heq). exists "", "".
    destruct pre; [|done]. simpl in Heq. destruct t; [|done].
    split; [done | simpl; lia].
  - destruct (Str.startswith t (String ch c)) eqn:Hsw.
    + apply startswith_spec in Hsw as [rest Hrest]. exists "", rest.
      split; [done | simpl; lia].
    + apply occurs_cons_inv in Hocc as [Hocc|Hocc]; [congruence|].
      destruct (IH Hocc) as (pre & post & -> & Hmin).
      exists (String ch pre), post. split; [done|].
      intros [|ch' pre'] post' Heq; simpl in Heq.
      * rewrite Heq, startswith_app in Hsw. done.
      * injection Heq as _ Heq. simpl. apply Hmin in Heq. lia.
Qed.

Lemma first_occurrence_cons t ch c pre post :
  first_occurrence t (String ch c) (String ch pre) post → first_occurrence t c pre post.
Proof.
  intros [Heq Hmin]. simpl in Heq. injection Heq as ->. split; [done|].
  intros pre' post' Heq. specialize (Hmin (String ch pre') post').
  simpl in Hmin. rewrite <- Heq in Hmin. specialize (Hmin eq_refl). lia.
Qed.

(** *** The three equations of the scan *)

Lemma replace_scan_skip t s pre rest :
  Str.replace_scan t s (String.length pre) (pre +:+ rest) = Str.replace_scan t s 0 rest.
Proof. induction pre; simpl; [by destruct rest | done]. Qed.

Lemma replace_nil t s : t ≠ "" → Str.replace "" t s = "".
Proof. by destruct t. Qed.

Lemma replace_hit t s rest :
  t ≠ "" → Str.replace (t +:+ rest) t s = s +:+ Str.replace rest t s.
Proof.
  destruct t as [|a t]; [done|]. intros _. unfold Str.replace.
  change (String a t +:+ rest) with (String a (t +:+ rest)).
  cbn [Str.replace_scan].
  change (String a (t +:+ rest)) with (String a t +:+ rest).
  rewrite startswith_app.
  replace (String.length (String a t) - 1) with (String.length t) by (simpl; lia).
  by rewrite replace_scan_skip.
Qed.

Lemma replace_miss t s ch rest :
  Str.startswith t (String ch rest) = false →
  Str.replace (String ch rest) t s = String ch (Str.replace rest t s).
Proof.
  destruct t as [|a t]; [done|]. intros Hsw. unfold Str.replace.
  cbn [Str.replace_scan]. by rewrite Hsw.
Qed.

Lemma replace_whole t s : t ≠ "" → Str.replace t t s = s.
Proof.
  intros Ht. pose proof (replace_hit t s "" Ht) as Hhit.
  by rewrite replace_nil, !str_app_nil_r in Hhit.
Qed.

(** Without an occurrence of the target the content is returned as it is. *)
Lemma replace_absent t s c : ¬ Str.occurs t c → Str.replace c t s = c.
Proof.
  intros Hno. assert (t ≠ "") as Ht.
  { intros ->. apply Hno. by exists "", c. }
  induction c as [|ch c IH]; [by apply replace_nil|].
  rewrite replace_miss.
  - f_equal. apply IH. intros Hocc. by apply Hno, occurs_cons.
  - destruct (Str.startswith t (String ch c)) eqn:Hsw; [|done].
    by apply occurs_here in Hsw.
Qed.

(** At the first occurrence the scan copies what precedes it, emits the
    replacement and goes on behind the occurrence. *)
Lemma replace_first_occurrence t s c pre post :
  t ≠ "" → first_occurrence t c pre post →
  Str.replace c t s = pre +:+ s +:+ Str.replace post t s.
Proof.
  intros Ht. revert c. induction pre as [|ch pre IH]; intros c Hfirst.
  - destruct Hfirst as [-> _]. simpl. by apply replace_hit.
  - pose proof Hfirst as [Heq Hmin]. simpl in Heq. subst c.
    rewrite replace_miss.
    + simpl. f_equal. apply IH. by eapply first_occurrence_cons.
    + destruct (Str.startswith t (String ch (pre +:+ t +:+ post))) eqn:Hsw; [|done].
      apply startswith_spec in Hsw as [rest Hrest].
      specialize (Hmin "" rest Hrest). simpl in Hmin. lia.
Qed.

(** *** Characters *)

Lemma after_each_cons s ch rest :
  Str.after_each s (String ch rest)
  = String ch
      match rest with
      | String ch' _ =>
          if Str.is_continuation ch' then Str.after_each s rest
          else s +:+ Str.after_each s rest
      | EmptyString => s
      end.
Proof. done. Qed.

Lemma chars_cons ch rest :
  Str.chars (String ch rest)
  = match rest with
    | String ch' _ =>
        if Str.is_continuation ch' then
          match Str.chars rest with
          | c :: cs => String ch c :: cs
          | [] => [String ch EmptyString]
          end
        else String ch EmptyString :: Str.chars rest
    | EmptyString => [String ch EmptyString]
    end.
Proof. done. Qed.

Lemma chars_nonempty ch rest : Str.chars (String ch rest) ≠ [].
Proof.
  revert ch. induction rest as [|ch' rest IH]; intros ch; [done|].
  rewrite chars_cons. destruct (Str.is_continuation ch'); [|done].
  by destruct (Str.chars (String ch' rest)).
Qed.

Lemma after_each_empty c : Str.after_each "" c = c.
Proof.
  induction c as [|ch c IH]; [done|]. rewrite after_each_cons.
  destruct c as [|ch' c]; [done|].
  destruct (Str.is_continuation ch');
    [|change ("" +:+ Str.after_each "" (String ch' c))
        with (Str.after_each "" (String ch' c))];
    by rewrite IH.
Qed.

Lemma join_cons s x y xs :
  Str.join s (x :: y :: xs) = x +:+ s +:+ Str.join s (y :: xs).
Proof. done. Qed.

(** The characters of a text make up the text. *)
Lemma join_chars c : Str.join "" (Str.chars c) = c.
Proof.
  induction c as [|ch c IH]; [done|]. rewrite chars_cons.
  destruct c as [|ch' c]; [done|].
  pose proof (chars_nonempty ch' c) as Hne.
  destruct (Str.chars (String ch' c)) as [|x xs] eqn:Hch; [done|].
  destruct (Str.is_continuation ch').
  - rewrite <- IH. by destruct xs.
  - rewrite join_cons, IH. done.
Qed.

(** No character is empty. *)
Lemma chars_not_empty c : Forall (λ x, x ≠ "") (Str.chars c).
Proof.
  induction c as [|ch c IH]; [constructor|]. rewrite chars_cons.
  destruct c as [|ch' c]; [by repeat constructor|].
  destruct (Str.is_continuation ch').
  - destruct (Str.chars (String ch' c)) as [|x xs]; [by repeat constructor|].
    inversion IH; subst. by constructor.
  - by constructor.
Qed.

(** [swap] behind every character is the characters and an empty string
    joined by [swap]. *)
Lemma after_each_join s c : Str.after_each s c = Str.join s (Str.chars c ++ [""]).
Proof.
  induction c as [|ch c IH]; [done|]. rewrite after_each_cons, chars_cons.
  destruct c as [|ch' c].
  - simpl. by rewrite str_app_nil_r.
  - pose proof (chars_nonempty ch' c) as Hne.
    destruct (Str.chars (String ch' c)) as [|x xs] eqn:Hch; [done|].
    destruct (Str.is_continuation ch'); rewrite IH.
    + change ((String ch x :: xs) ++ [""]) with (String ch x :: (xs ++ [""])).
      change ((x :: xs) ++ [""]) with (x :: (xs ++ [""])).
      destruct (xs ++ [""]) eqn:Hxs; [by destruct xs|]. by rewrite !join_cons.
    + change ((String ch "" :: x :: xs) ++ [""])
        with (String ch "" :: x :: (xs ++ [""])).
      by rewrite join_cons.
Qed.

Lemma length_after_each s c :
  String.length (Str.after_each s c)
  = String.length c + length (Str.chars c) * String.length s.
Proof.
  induction c as [|ch c IH]; [done|]. rewrite after_each_cons, chars_cons.
  destruct c as [|ch' c]; [simpl; lia|].
  pose proof (chars_nonempty ch' c) as Hne.
  destruct (Str.chars (String ch' c)) as [|x xs] eqn:Hch; [done|].
  destruct (Str.is_continuation ch').
  - change (String.length (String ch (Str.after_each s (String ch' c))))
      with (S (String.length (Str.after_each s (String ch' c)))).
    rewrite IH. simpl. lia.
  - change (String.length (String ch (s +:+ Str.after_each s (String ch' c))))
      with (S (String.length (s +:+ Str.after_each s (String ch' c)))).
    rewrite str_length_app, IH. simpl. lia.
Qed.

Lemma replace_same t c : Str.replace c t t = c.
Proof.
  destruct (decide (t = "")) as [->|Ht].
  - simpl. apply after_each_empty.
  - remember (String.length c) as n eqn:Hn. revert c Hn.
    induction (lt_wf n) as [n _ IH]. intros c ->.
    destruct (Str.contains t c) eqn:Hc.
    + apply contains_spec, first_occurrence_exists in Hc as (pre & post & Hfirst).
      rewrite (replace_first_occurrence _ _ _ _ _ Ht Hfirst).
      destruct Hfirst as [-> _]. do 2 f_equal.
      eapply IH; [|done]. rewrite !str_length_app. destruct t; [done|simpl; lia].
    + apply replace_absent. rewrite <- contains_spec. congruence.
Qed.

(** *** Lengths *)

Lemma replace_length_grow t s c :
  t ≠ "" → String.length t ≤ String.length s →
  String.length c ≤ String.length (Str.replace c t s).
Proof.
  intros Ht Hts. remember (String.length c) as n eqn:Hn. revert c Hn.
  induction (lt_wf n) as [n _ IH]. intros c ->.
  destruct (Str.contains t c) eqn:Hc.
  - apply contains_spec, first_occurrence_exists in Hc as (pre & post & Hfirst).
    rewrite (replace_first_occurrence _ _ _ _ _ Ht Hfirst).
    destruct Hfirst as [-> _]. rewrite !str_length_app.
    assert (String.length post ≤ String.length (Str.replace post t s)); [|lia].
    eapply IH; [|done]. rewrite !str_length_app. destruct t; [done|simpl; lia].
  - rewrite replace_absent; [done|]. rewrite <- contains_spec. congruence.
Qed.

Lemma replace_length_shrink t s c :
  t ≠ "" → String.length s ≤ String.length t →
  String.length (Str.replace c t s) ≤ String.length c.
Proof.
  intros Ht Hts. remember (String.length c) as n eqn:Hn. revert c Hn.
  induction (lt_wf n) as [n _ IH]. intros c ->.
  destruct (Str.contains t c) eqn:Hc.
  - apply contains_spec, first_occurrence_exists in Hc as (pre & post & Hfirst).
    rewrite (replace_first_occurrence _ _ _ _ _ Ht Hfirst).
    destruct Hfirst as [-> _]. rewrite !str_length_app.
    assert (String.length (Str.replace post t s) ≤ String.length post); [|lia].
    eapply IH; [|done]. rewrite !str_length_app. destruct t; [done|simpl; lia].
  - rewrite replace_absent; [done|]. rewrite <- contains_spec. congruence.
Qed.

(** Where the target occurs and differs from the replacement, replacing
    changes the content. *)
Lemma replace_changes t s c :
  t ≠ "" → t ≠ s → Str.occurs t c → Str.replace c t s ≠ c.
Proof.
  intros Ht Hts (pre & post & Hfirst)%first_occurrence_exists.
  rewrite (replace_first_occurrence _ _ _ _ _ Ht Hfirst).
  destruct Hfirst as [-> _]. intros Heq%(inj (String.app pre)).
  destruct (decide (String.length s = String.length t)) as [Hlen|Hlen].
  - apply str_app_inv_length in Heq as [? _]; congruence.
  - apply (f_equal String.length) in Heq. rewrite !str_length_app in Heq.
    destruct (decide (String.length s < String.length t)).
    + pose proof (replace_length_shrink t s post Ht). lia.
    + pose proof (replace_length_grow t s post Ht). lia.
Qed.

Lemma length_interleave s c :
  String.length (Str.interleave s c)
  = String.length c + S (length (Str.chars c)) * String.length s.
Proof.
  unfold Str.interleave. rewrite str_length_app, length_after_each. lia.
Qed.

End StrFacts.

(** Decide a closed occurrence question by running [Str.contains]. *)
Ltac decide_occurs :=
  rewrite <- contains_spec; vm_compute; first [reflexivity | discriminate].

(** ** Content transform *)

Lemma edit_file_content_plain c t s :
  edit_file_content c t s None None = Str.replace c t s.
Proof. reflexivity. Qed.

(** The scan of the code realises the specification's relation... *)
Lemma replace_scans c t s :
  t ≠ "" → replaces_left_to_right t s c (Str.replace c t s).
Proof.
  intros Ht. remember (String.length c) as n eqn:Hn. revert c Hn.
  induction (lt_wf n) as [n _ IH]. intros c ->.
  destruct (Str.contains t c) eqn:Hc.
  - apply contains_spec, first_occurrence_exists in Hc as (pre & post & Hfirst).
    rewrite (replace_first_occurrence _ _ _ _ _ Ht Hfirst).
    eapply scan_hit; [exact Hfirst|]. destruct Hfirst as [-> _].
    eapply IH; [|done]. rewrite !str_length_app. destruct t; [done|simpl; lia].
  - assert (¬ Str.occurs t c) as Hno by (rewrite <- contains_spec; congruence).
    rewrite replace_absent by done. by apply scan_done.
Qed.

(** ... and is the only result the relation admits. *)
Lemma replaces_left_to_right_unique c t s r :
  t ≠ "" → replaces_left_to_right t s c r → r = Str.replace c t s.
Proof.
  intros Ht. induction 1 as [c Hno|c pre post r Hfirst _ IH].
  - by rewrite replace_absent.
  - by rewrite (replace_first_occurrence _ _ _ _ _ Ht Hfirst), IH.
Qed.

(** The three steps of the transform, in their order. *)
Lemma edit_file_content_steps (c t s : string) (p a : option string) :
  edit_file_content c t s p a = (default "" p +:+ Str.replace c t s) +:+ default "" a.
Proof.
  unfold edit_file_content.
  destruct p as [[|ch p]|], a as [[|ch' a]|]; simpl; by rewrite ?str_app_nil_r.
Qed.

(** A left-to-right replacement is Python's [s.join(c.split(t))]: the
    content is the pieces [gaps] joined by the target and the result is the
    same pieces joined by the replacement. *)
Lemma replaces_left_to_right_join t s c r :
  replaces_left_to_right t s c r →
  ∃ gaps, gaps ≠ [] ∧ c = Str.join t gaps ∧ r = Str.join s gaps.
Proof.
  induction 1 as [c _|c pre post r [-> _] _ (gaps & Hgaps & -> & ->)].
  - by exists [c].
  - exists (pre :: gaps). by destruct gaps.
Qed.

(** C2: the transform is the substitution result with the prefix put in
    front and then the suffix put behind, [(p ++ replace(c,t,s)) ++ a]; an
    absent prefix or suffix contributes nothing. *)
Theorem edit_file_content_order (c t s : string) (p a : option string) :
  edit_file_content c t s p a = (default "" p +:+ Str.replace c t s) +:+ default "" a.
Proof. apply edit_file_content_steps. Qed.

(** C3: for a non-empty target the transform replaces every non-overlapping
    occurrence of the target, scanning left to right: its substitution
    result [r] is the one and only string related to the content by
    [replaces_left_to_right], the content is pieces joined by the target
    where [r] is the same pieces joined by the replacement, and the
    transform puts the optional prefix and suffix around [r].  On
    ["hello world"] with target ["world"], swap ["there"] and prefix [">> "]
    it returns [">> hello there"]. *)
Theorem edit_file_content_replaces_all (c t s : string) :
  t ≠ "" →
  (∃ r, replaces_left_to_right t s c r
        ∧ (∀ r', replaces_left_to_right t s c r' → r' = r)
        ∧ (∃ gaps, gaps ≠ [] ∧ c = Str.join t gaps ∧ r = Str.join s gaps)
        ∧ ∀ p a, edit_file_content c t s p a = (default "" p +:+ r) +:+ default "" a)
  ∧ edit_file_content "hello world" "world" "there" (Some ">> ") None = ">> hello there".
Proof.
  intros Ht. split; [|reflexivity].
  exists (Str.replace c t s). split_and!.
  - by apply replace_scans.
  - intros r'. by apply replaces_left_to_right_unique.
  - by apply (replaces_left_to_right_join t s), replace_scans.
  - intros p a. apply edit_file_content_steps.
Qed.

Lemma edit_file_content_replaces_all_witness :
  "world" ≠ "" ∧
  ((∃ r, replaces_left_to_right "world" "there" "hello world" r
         ∧ (∀ r', replaces_left_to_right "world" "there" "hello world" r' → r' = r)
         ∧ (∃ gaps, gaps ≠ [] ∧ "hello world" = Str.join "world" gaps
                    ∧ r = Str.join "there" gaps)
         ∧ ∀ p a, edit_file_content "hello world" "world" "there" p a
                  = (default "" p +:+ r) +:+ default "" a)
   ∧ edit_file_content "hello world" "world" "there" (Some ">> ") None = ">> hello there").
Proof.
  split; [discriminate|].
  apply (edit_file_content_replaces_all "hello world" "world" "there"). discriminate.
Defined.

(** The target is matched literally: a dot is a dot. *)
Example edit_literal : edit_file_content "a.c abc" "." "-" None None = "a-c abc".
Proof. reflexivity. Qed.

(** ** Applying the transform twice *)

Lemma occurs_single_app ch a b :
  Str.occurs (String ch "") (a +:+ b) →
  Str.occurs (String ch "") a ∨ Str.occurs (String ch "") b.
Proof.
  induction a as [|ch' a IH]; simpl; [by right|].
  intros [Hsw|Hocc]%occurs_cons_inv.
  - left. apply occurs_here. simpl in *. by case_decide.
  - destruct (IH Hocc) as [?|?]; [left; by apply occurs_cons | by right].
Qed.

(** A one-character target that is not in the replacement is gone after one
    pass. *)
Lemma replace_single_gone ch s c :
  ¬ Str.occurs (String ch "") s →
  ¬ Str.occurs (String ch "") (Str.replace c (String ch "") s).
Proof.
  intros Hs. induction c as [|ch' c IH].
  - simpl. intros Hocc%occurs_length. simpl in Hocc. lia.
  - destruct (decide (ch = ch')) as [<-|Hne].
    + change (String ch c) with (String ch "" +:+ c).
      rewrite replace_hit by done. intros [?|?]%occurs_single_app; done.
    + rewrite replace_miss by (simpl; by case_decide).
      intros [Hsw|?]%occurs_cons_inv; [|done].
      simpl in Hsw. by case_decide.
Qed.

(** C4, as amended: if applying the transform (without prefix and suffix)
    twice gives the same as applying it once for every content, then the
    target does not occur in the replacement, or the two are equal; and
    whenever the target does not occur in the once-transformed content, the
    second application leaves it unchanged. *)
Theorem edit_twice_idempotence (c t s : string) :
  ((∀ c', edit_file_content (edit_file_content c' t s None None) t s None None
          = edit_file_content c' t s None None) →
   t = s ∨ ¬ Str.occurs t s)
  ∧ (¬ Str.occurs t (edit_file_content c t s None None) →
     edit_file_content (edit_file_content c t s None None) t s None None
     = edit_file_content c t s None None).
Proof.
  rewrite !edit_file_content_plain. split.
  - intros Hidem. destruct (decide (t = s)) as [|Hts]; [by left|]. right.
    intros Hocc. specialize (Hidem t). rewrite !edit_file_content_plain in Hidem.
    destruct (decide (t = "")) as [->|Ht].
    + simpl in Hidem. apply (f_equal String.length) in Hidem.
      rewrite length_interleave in Hidem. destruct s; [done|]. simpl in Hidem. lia.
    + rewrite (replace_whole t s Ht) in Hidem.
      by apply (replace_changes t s s).
  - apply replace_absent.
Qed.

Lemma edit_twice_idempotence_witness :
  (∀ c', edit_file_content (edit_file_content c' "b" "y" None None) "b" "y" None None
         = edit_file_content c' "b" "y" None None)
  ∧ ¬ Str.occurs "b" (edit_file_content "abba" "b" "y" None None)
  ∧ ("b" = "y" ∨ ¬ Str.occurs "b" "y")
  ∧ edit_file_content (edit_file_content "abba" "b" "y" None None) "b" "y" None None
    = edit_file_content "abba" "b" "y" None None.
Proof.
  assert (∀ c', edit_file_content (edit_file_content c' "b" "y" None None) "b" "y" None None
                = edit_file_content c' "b" "y" None None) as Hidem.
  { intros c'. rewrite !edit_file_content_plain. apply replace_absent.
    apply replace_single_gone. decide_occurs. }
  assert (¬ Str.occurs "b" (edit_file_content "abba" "b" "y" None None)) as Hgone
    by decide_occurs.
  split_and!; [exact Hidem | exact Hgone | |].
  - exact (proj1 (edit_twice_idempotence "abba" "b" "y") Hidem).
  - exact (proj2 (edit_twice_idempotence "abba" "b" "y") Hgone).
Defined.

(** C4 as stated does not hold.  The absence of the target from the
    replacement does not make the transform idempotent: on ["abb"] with
    target ["ab"] and replacement ["a"] the first pass gives ["ab"] and the
    second ["a"].  And idempotence on every content does not exclude the
    target from the replacement: replacing ["a"] by ["a"] changes nothing. *)
Lemma edit_twice_not_idempotent :
  (¬ Str.occurs "ab" "a"
   ∧ edit_file_content (edit_file_content "abb" "ab" "a" None None) "ab" "a" None None
     ≠ edit_file_content "abb" "ab" "a" None None)
  ∧ ((∀ c, edit_file_content (edit_file_content c "a" "a" None None) "a" "a" None None
           = edit_file_content c "a" "a" None None)
     ∧ Str.occurs "a" "a").
Proof.
  split_and!.
  - decide_occurs.
  - vm_compute. discriminate.
  - intros c. by rewrite !edit_file_content_plain, !replace_same.
  - decide_occurs.
Qed.

(** ** The monad *)

Section MonadFacts.
Context {W : Type} `{!OS W}.

Lemma bind_ok {A B} (m : M W A) (k : A → M W B) w a w' :
  m w = (Ok a, w') → (m ≫= k) w = k a w'.
Proof. unfold mbind, M_bind. by intros ->. Qed.

Lemma bind_raise {A B} (m : M W A) (k : A → M W B) w e w' :
  m w = (Raise e, w') → (m ≫= k) w = (Raise e, w').
Proof. unfold mbind, M_bind. by intros ->. Qed.

(** What one iteration of the loop does with the outcome of its [try]
    block. *)
Lemma process_step_outcome files target swap prepend append output_dir file_path
    success_count error_count error_log (w : World W) :
  process_step files target swap prepend append output_dir file_path
    (success_count, error_count, error_log) w
  = let r := process_file files target swap prepend append output_dir file_path w in
    (Ok match r.1 with
        | Ok _ => (S success_count, error_count, error_log)
        | Raise e => (success_count, S error_count,
                      error_log ++ [error_entry file_path e])
        end, r.2).
Proof.
  unfold process_step, try_except, mbind, M_bind, mret, M_ret. simpl.
  by destruct (process_file _ _ _ _ _ _ _ w) as [[[]|e] w'].
Qed.

Lemma error_entry_mentions file_path e :
  Str.occurs file_path (error_entry file_path e)
  ∧ Str.occurs (str_exn e) (error_entry file_path e).
Proof.
  unfold error_entry. split.
  - by exists "Error processing ", (": " +:+ str_exn e).
  - exists ("Error processing " +:+ file_path +:+ ": "), "".
    by rewrite !str_app_assoc, str_app_nil_r.
Qed.

Lemma tally_ok file_path u (run : list (string * result ())) :
  succeeded ((file_path, Ok u) :: run) = S (succeeded run)
  ∧ failed ((file_path, Ok u) :: run) = failed run
  ∧ failure_entries ((file_path, Ok u) :: run) = failure_entries run.
Proof.
  unfold succeeded, failed, failure_entries. rewrite !filter_cons. simpl.
  repeat case_decide; done.
Qed.

Lemma tally_raise file_path e (run : list (string * result ())) :
  succeeded ((file_path, Raise e) :: run) = succeeded run
  ∧ failed ((file_path, Raise e) :: run) = S (failed run)
  ∧ failure_entries ((file_path, Raise e) :: run)
    = error_entry file_path e :: failure_entries run.
Proof.
  unfold succeeded, failed, failure_entries. rewrite !filter_cons. simpl.
  repeat case_decide; done.
Qed.

(** The loop, from any value of its accumulators, in terms of the
    outcomes of the files still to do. *)
Lemma for_in_process_step files target swap prepend append output_dir todo
    success_count error_count error_log (w : World W) :
  let run := outcomes files target swap prepend append output_dir todo w in
  for_in todo (process_step files target swap prepend append output_dir)
    (success_count, error_count, error_log) w
  = (Ok (success_count + succeeded run.1, error_count + failed run.1,
         error_log ++ failure_entries run.1), run.2).
Proof.
  revert success_count error_count error_log w.
  induction todo as [|file_path todo IH]; intros success_count error_count error_log w.
  - simpl. unfold mret, M_ret, succeeded, failed, failure_entries. simpl.
    by rewrite !Nat.add_0_r, app_nil_r.
  - cbn [for_in outcomes]. erewrite bind_ok; [|apply process_step_outcome].
    cbn zeta.
    destruct (process_file _ _ _ _ _ _ file_path w) as [[u|e] w'];
      cbn [fst snd]; rewrite IH; cbn zeta.
    + destruct (tally_ok file_path u
                  (outcomes files target swap prepend append output_dir todo w').1)
        as (-> & -> & ->).
      by rewrite Nat.add_succ_r.
    + destruct (tally_raise file_path e
                  (outcomes files target swap prepend append output_dir todo w').1)
        as (-> & -> & ->).
      by rewrite Nat.add_succ_r, <- app_assoc.
Qed.

Lemma outcomes_paths files target swap prepend append output_dir todo (w : World W) :
  (outcomes files target swap prepend append output_dir todo w).1.*1 = todo.
Proof.
  revert w. induction todo as [|file_path todo IH]; intros w; [done|].
  cbn [outcomes fst fmap list_fmap]. f_equal. apply IH.
Qed.

Lemma succeeded_failed (run : list (string * result ())) :
  succeeded run + failed run = length run.
Proof.
  induction run as [|[f [u|e]] run IH]; [done|..].
  - destruct (tally_ok f u run) as (-> & -> & _). simpl. lia.
  - destruct (tally_raise f e run) as (-> & -> & _). simpl. lia.
Qed.

Lemma failure_entries_length (run : list (string * result ())) :
  length (failure_entries run) = failed run.
Proof.
  induction run as [|[f [u|e]] run IH]; [done|..].
  - by destruct (tally_ok f u run) as (_ & -> & ->).
  - destruct (tally_raise f e run) as (_ & -> & ->). simpl. by rewrite IH.
Qed.

End MonadFacts.

(** ** Batch runner *)

Section BatchRunner.
Context {W : Type} `{!OS W}.
Implicit Types (files todo : list string) (w : World W).

(** The whole batch in terms of the outcomes of its files. *)
Lemma process_files_run files target swap prepend append output_dir w :
  let run := outcomes files target swap prepend append output_dir files w in
  process_files files target swap prepend append output_dir w
  = (Ok (succeeded run.1, failed run.1, failure_entries run.1), run.2).
Proof. unfold process_files. by rewrite for_in_process_step. Qed.

(** A file that cannot be read fails as a whole, with the exception of
    the read. *)
Lemma process_file_unread files target swap prepend append output_dir file_path w e :
  (read_text file_path w).1 = Raise e →
  process_file files target swap prepend append output_dir file_path w
  = (Raise e, (read_text file_path w).2).
Proof.
  intros Hread. unfold process_file. apply bind_raise.
  destruct (read_text file_path w) as [r w']. simpl in Hread. by subst r.
Qed.

(** C1: whatever the operating system does, the batch runner returns
    normally, and its result is that of running the [try] block of every
    file in turn, each on the machine as the previous one left it: an
    exception raised for a file is counted once and logged as one entry
    holding the path of that file and the message of the exception, and the
    files behind it are processed all the same.  In a batch of three files
    of which only the second cannot be read, two succeed, one fails, and
    the log is the single entry of the second file. *)
Theorem process_files_isolates_failures
    files target swap prepend append output_dir w f1 f2 f3 e :
  let run := outcomes files target swap prepend append output_dir files w in
  (process_files files target swap prepend append output_dir w
   = (Ok (succeeded run.1, failed run.1, failure_entries run.1), run.2)
   ∧ run.1.*1 = files
   ∧ length (failure_entries run.1) = failed run.1
   ∧ ∀ file_path e',
       (file_path, Raise e') ∈ run.1 →
       error_entry file_path e' ∈ failure_entries run.1
       ∧ Str.occurs file_path (error_entry file_path e')
       ∧ Str.occurs (str_exn e') (error_entry file_path e'))
  ∧ (files = [f1; f2; f3] →
     let r1 := process_file files target swap prepend append output_dir f1 w in
     let r2 := read_text f2 r1.2 in
     let r3 := process_file files target swap prepend append output_dir f3 r2.2 in
     r1.1 = Ok () → r2.1 = Raise e → r3.1 = Ok () →
     process_files files target swap prepend append output_dir w
     = (Ok (2, 1, [error_entry f2 e]), r3.2)).
Proof.
  intros run. split; [split_and!|].
  - apply process_files_run.
  - apply outcomes_paths.
  - apply failure_entries_length.
  - intros file_path e' Hin. split; [|apply error_entry_mentions].
    unfold failure_entries. apply list_elem_of_omap. by exists (file_path, Raise e').
  - intros -> r1 r2 r3 H1 H2 H3. rewrite process_files_run. cbn [outcomes].
    fold r1. rewrite (process_file_unread _ _ _ _ _ _ f2 r1.2 e H2).
    cbn [fst snd]. fold r2 r3. rewrite H1, H3. reflexivity.
Qed.

(** C10: succeeded and failed add up to the number of files, and the
    error log has one entry per failed file. *)
Theorem process_files_accounts files target swap prepend append output_dir w :
  ∃ success_count error_count error_log,
    (process_files files target swap prepend append output_dir w).1
    = Ok (success_count, error_count, error_log)
    ∧ success_count + error_count = length files
    ∧ length error_log = error_count.
Proof.
  rewrite process_files_run. cbn zeta. eexists _, _, _. split_and!; [done|..].
  - rewrite succeeded_failed, <- (length_fmap fst), outcomes_paths. done.
  - apply failure_entries_length.
Qed.

(** *** File operations of a batch *)

(** If the [try] block of every file performs operations of shape [P],
    the operations of the batch are such a sequence for every file, in the
    order of the files. *)
Lemma batch_calls (P : string → list syscall → Prop)
    files target swap prepend append output_dir todo acc w :
  (∀ file_path w', file_path ∈ todo →
     ∃ ops, calls (process_file files target swap prepend append output_dir
                     file_path w').2 = calls w' ++ ops
            ∧ P file_path ops) →
  ∃ chunks,
    calls (for_in todo (process_step files target swap prepend append output_dir)
             acc w).2 = calls w ++ concat chunks
    ∧ Forall2 P todo chunks.
Proof.
  revert acc w. induction todo as [|file_path todo IH]; intros acc w Hone.
  - exists []. simpl. by rewrite app_nil_r.
  - destruct acc as [[success_count error_count] error_log].
    cbn [for_in]. erewrite bind_ok; [|apply process_step_outcome]. cbn zeta.
    destruct (Hone file_path w) as (ops & Hops & HP); [left|].
    edestruct IH as (chunks & Hchunks & Hall).
    { intros f w' Hf. apply Hone. by right. }
    exists (ops :: chunks). rewrite Hchunks, Hops. simpl.
    by rewrite app_assoc; split; [|constructor].
Qed.

Lemma process_file_in_place files target swap prepend append output_dir file_path w :
  Str.truthy_opt output_dir = false →
  ∃ ops, calls (process_file files target swap prepend append output_dir
                  file_path w).2 = calls w ++ ops
         ∧ in_place_ops target swap prepend append file_path ops.
Proof.
  intros Hout. unfold process_file. rewrite Hout.
  unfold mbind, M_bind, read_text, write_text. cbn [fst snd].
  destruct (open_read file_path (os w)) as [[content|e] o]; cbn [fst snd].
  - eexists. split; [simpl; by rewrite <- app_assoc|]. apply in_place_written.
  - eexists. split; [done|]. apply in_place_unread.
Qed.

Lemma perform_all_app ops ops' (o : W) :
  perform_all (ops ++ ops') o
  = ((perform_all ops o).1 ++ (perform_all ops' (perform_all ops o).2).1,
     (perform_all ops' (perform_all ops o).2).2).
Proof.
  revert o. induction ops as [|c ops IH]; intros o;
    [simpl; by destruct (perform_all ops' o)|].
  cbn [app perform_all fst snd]. by rewrite IH.
Qed.

(** If the [try] block of every file performs operations of shape [P] and
    these are what is done to the machine, so are the operations of the
    batch. *)
Lemma batch_performed (P : string → list syscall → Prop)
    files target swap prepend append output_dir todo acc w :
  (∀ file_path w', file_path ∈ todo →
     ∃ ops, calls (process_file files target swap prepend append output_dir
                     file_path w').2 = calls w' ++ ops
            ∧ P file_path ops
            ∧ perform_all ops (os w')
              = (ops, os (process_file files target swap prepend append output_dir
                            file_path w').2)) →
  ∃ chunks,
    calls (for_in todo (process_step files target swap prepend append output_dir)
             acc w).2 = calls w ++ concat chunks
    ∧ Forall2 P todo chunks
    ∧ perform_all (concat chunks) (os w)
      = (concat chunks,
         os (for_in todo (process_step files target swap prepend append output_dir)
               acc w).2).
Proof.
  revert acc w. induction todo as [|file_path todo IH]; intros acc w Hone.
  - exists []. simpl. by rewrite app_nil_r.
  - destruct acc as [[success_count error_count] error_log].
    cbn [for_in]. erewrite bind_ok; [|apply process_step_outcome]. cbn zeta.
    destruct (Hone file_path w) as (ops & Hops & HP & Hdone); [left|].
    edestruct IH as (chunks & Hchunks & Hall & Hrest).
    { intros f w' Hf. apply Hone. by right. }
    exists (ops :: chunks). rewrite Hchunks, Hops. cbn [concat].
    rewrite perform_all_app, Hdone. cbn [fst snd]. rewrite Hrest. cbn [fst snd].
    by rewrite app_assoc; split_and!; [| constructor |].
Qed.

Lemma process_file_in_place_performed
    files target swap prepend append output_dir file_path w :
  Str.truthy_opt output_dir = false →
  ∃ ops, calls (process_file files target swap prepend append output_dir
                  file_path w).2 = calls w ++ ops
         ∧ in_place_ops target swap prepend append file_path ops
         ∧ perform_all ops (os w)
           = (ops, os (process_file files target swap prepend append output_dir
                         file_path w).2).
Proof.
  intros Hout. unfold process_file. rewrite Hout.
  unfold mbind, M_bind, read_text, write_text. cbn [fst snd].
  destruct (open_read file_path (os w)) as [[content|e] o] eqn:Hread; cbn [fst snd].
  - eexists. split; [simpl; by rewrite <- app_assoc|].
    split; [apply in_place_written|].
    cbn [app perform_all perform fst snd os record_call]. by rewrite Hread.
  - eexists. split; [done|]. split; [apply in_place_unread|].
    cbn [app perform_all perform fst snd os record_call]. by rewrite Hread.
Qed.

(** C7: without an output directory every file of the batch is written
    back to the very path it was read from: the file operations of the
    batch are, file by file and in order, a read of the file followed,
    when the read succeeded, by a write of the transformed content to the
    same path.  These operations are what is done to the machine: carried
    out one after the other from the machine of the start, each has the
    outcome noted with it, the content a write transforms is the content
    its read returned, and the machine they leave is the machine the batch
    leaves. *)
Theorem process_files_in_place files target swap prepend append w :
  ∃ chunks,
    calls (process_files files target swap prepend append None w).2
    = calls w ++ concat chunks
    ∧ Forall2 (in_place_ops target swap prepend append) files chunks
    ∧ perform_all (concat chunks) (os w)
      = (concat chunks, os (process_files files target swap prepend append None w).2).
Proof.
  apply batch_performed. intros file_path w' _.
  by apply process_file_in_place_performed.
Qed.

Lemma process_file_mirrored_performed
    files target swap prepend append out file_path w :
  out ≠ "" → file_path ∈ files →
  ∃ ops, calls (process_file files target swap prepend append (Some out)
                  file_path w).2 = calls w ++ ops
         ∧ mirrored_ops target swap prepend append out
             (os_path_dirname (default "" (head files))) file_path ops
         ∧ perform_all ops (os w)
           = (ops, os (process_file files target swap prepend append (Some out)
                         file_path w).2).
Proof.
  intros Hout Hin. destruct files as [|first files']; [by apply elem_of_nil in Hin|].
  unfold process_file. cbn [Str.truthy_opt]. destruct out as [|ch out]; [done|].
  cbn [Str.truthy head default].
  unfold mbind, M_bind, read_text, write_text, makedirs, relpath, index, mret, M_ret.
  cbn [fst snd lookup list_lookup].
  destruct (open_read file_path (os w)) as [[content|e] o] eqn:Hread; cbn [fst snd];
    [|eexists; split; [done|split; [apply mirrored_unread|]];
      cbn [app perform_all perform fst snd os record_call]; by rewrite Hread].
  destruct (os_path_relpath file_path (os_path_dirname first)) as [rel_path|e] eqn:Hrel;
    [|eexists; split; [done|split; [by eapply mirrored_unresolved|]];
      cbn [app perform_all perform fst snd os record_call]; by rewrite Hread].
  unfold record_call. cbn [os calls from_option id].
  destruct (os_makedirs _ o) as [[[]|e] o'] eqn:Hmake; cbn [fst snd os calls].
  - eexists. split; [by rewrite <- !app_assoc|].
    split; [by apply mirrored_written|].
    cbn [app perform_all perform fst snd]. rewrite Hread. cbn [fst snd].
    by rewrite Hmake.
  - eexists. split; [by rewrite <- !app_assoc|].
    split; [by eapply mirrored_no_directory|].
    cbn [app perform_all perform fst snd]. rewrite Hread. cbn [fst snd].
    by rewrite Hmake.
Qed.

(** C8: with an output directory [out], the destination of every file of
    the batch is [out] joined with the path of the file relative to one
    anchor, the directory of the first file of the batch, and the directory
    of the destination is created before the destination is written: the
    file operations of the batch are, file by file and in order, a read, a
    [makedirs] of the directory of the destination, and a write of the
    transformed content to the destination (a step that fails ends the
    operations of its file).  These operations are what is done to the
    machine: carried out one after the other from the machine of the
    start, each has the outcome noted with it, so that every write meets
    the machine as the [makedirs] before it left it, and the machine they
    leave is the machine the batch leaves. *)
Theorem process_files_mirrored files target swap prepend append out w :
  out ≠ "" →
  ∃ chunks,
    calls (process_files files target swap prepend append (Some out) w).2
    = calls w ++ concat chunks
    ∧ Forall2 (mirrored_ops target swap prepend append out
                 (os_path_dirname (default "" (head files)))) files chunks
    ∧ perform_all (concat chunks) (os w)
      = (concat chunks,
         os (process_files files target swap prepend append (Some out) w).2).
Proof.
  intros Hout. apply batch_performed. intros file_path w' Hin.
  by apply process_file_mirrored_performed.
Qed.

(** ** File discovery *)

(** What [scan_directory] does, by the answers of its two checks: the
    second is made only after the first has said yes, an exception of
    either is the exception of the call, and the machine is left as it
    is. *)
Lemma scan_directory_cases directory recursive w :
  scan_directory directory recursive w
  = (match path_exists directory (os w) with
     | Raise e => Raise e
     | Ok false => Ok []
     | Ok true =>
         match path_is_dir directory (os w) with
         | Raise e => Raise e
         | Ok false => Ok []
         | Ok true =>
             path_glob directory (if recursive then "**/*.txt" else "*.txt") (os w)
         end
     end, w).
Proof.
  unfold scan_directory, ask, mbind, M_bind, mret, M_ret.
  destruct (path_exists directory (os w)) as [[]|]; cbn; [|done..].
  by destruct (path_is_dir directory (os w)) as [[]|]; cbn.
Qed.

Lemma scan_directory_pure directory recursive w :
  (scan_directory directory recursive w).2 = w.
Proof. by rewrite scan_directory_cases. Qed.

(** An exception of [exists()] or of [is_dir()] is raised by
    [scan_directory]. *)
Lemma scan_directory_guard_raises directory recursive w e :
  path_exists directory (os w) = Raise e
  ∨ (path_exists directory (os w) = Ok true ∧ path_is_dir directory (os w) = Raise e) →
  scan_directory directory recursive w = (Raise e, w).
Proof. rewrite scan_directory_cases. by intros [-> | [-> ->]]. Qed.

(** C5, as amended: for a root of which [exists()] says that it is not
    there, or [exists()] that it is there and [is_dir()] that it is not a
    directory, [scan_directory] returns the empty list, raises nothing and
    leaves the machine as it is, whatever the recursive flag. *)
Theorem scan_directory_no_directory directory recursive w :
  path_exists directory (os w) = Ok false
  ∨ (path_exists directory (os w) = Ok true ∧ path_is_dir directory (os w) = Ok false) →
  scan_directory directory recursive w = (Ok [], w).
Proof. rewrite scan_directory_cases. by intros [-> | [-> ->]]. Qed.

End BatchRunner.

(** ** Interactive confirmation *)

Section Confirmation.
Context {W : Type} `{!OS W}.
Implicit Types (files junk : list string) (w : World W).

Lemma written_written chunks chunks' w :
  written chunks' (written chunks w) = written (chunks ++ chunks') w.
Proof. unfold written. simpl. by rewrite app_assoc. Qed.


Lemma print_written line w : print line w = (Ok (), written [line +:+ newline] w).
Proof. reflexivity. Qed.








End Confirmation.

(** ** The POSIX-like machine *)

Section PosixFacts.
Implicit Types (t : gmap (list string) Posix.node) (base key rest : list string)
  (name pat : string) (m : Posix.machine).

Lemma below_spec base key rest : Posix.below base key = Some rest ↔ key = base ++ rest.
Proof.
  revert key. induction base as [|b base IH]; intros [|k key]; simpl;
    try (split; congruence).
  case_decide; [subst; rewrite IH|]; split; congruence.
Qed.

(** A star matches any prefix of the name. *)
Lemma fnmatch_star pat name :
  Posix.fnmatch (String "*" pat) name = true
  ↔ ∃ pre suf, name = pre +:+ suf ∧ Posix.fnmatch pat suf = true.
Proof.
  cbn [Posix.fnmatch]. destruct (decide _) as [_|]; [|done].
  induction name as [|ch name IH]; rewrite orb_true_iff.
  - split.
    + intros [?|?]; [by exists "", ""|done].
    + intros ([|??] & suf & Heq & ?); [|done]. simpl in Heq. subst suf. by left.
  - rewrite IH. split.
    + intros [?|(pre & suf & -> & ?)]; [by exists "", (String ch name)|].
      by exists (String ch pre), suf.
    + intros ([|ch' pre] & suf & Heq & ?); simpl in Heq.
      * subst suf. by left.
      * injection Heq as -> ->. right. by exists pre, suf.
Qed.

Lemma fnmatch_dot_txt name : Posix.fnmatch ".txt" name = true ↔ name = ".txt".
Proof.
  split; [|by intros ->].
  destruct name as [|c1 [|c2 [|c3 [|c4 [|c5 name]]]]]; simpl;
    repeat (case_decide; [done|]); rewrite ?andb_true_iff, ?bool_decide_eq_true;
    simpl; try done; intros; destruct_and?; by simplify_eq.
Qed.

(** The pattern of the non-recursive scan selects the names that end in
    [.txt]. *)
Lemma fnmatch_txt name :
  Posix.fnmatch "*.txt" name = true ↔ ∃ stem, name = stem +:+ ".txt".
Proof.
  rewrite fnmatch_star. split.
  - intros (pre & suf & -> & ->%fnmatch_dot_txt). by exists pre.
  - intros (stem & ->). exists stem, ".txt". by rewrite fnmatch_dot_txt.
Qed.

(** A final, non-recursive segment selects from the directory [base] its
    entries, of any kind, whose name matches. *)
Lemma select_children t base seg rels :
  seg ≠ "**" →
  rels ∈ Posix.select t base seg true [[]]
  ↔ ∃ name nd, t !! (base ++ [name]) = Some nd
               ∧ Posix.fnmatch seg name = true ∧ rels = [name].
Proof.
  intros Hseg. unfold Posix.select. rewrite list_elem_of_bind. split.
  - intros (found & Hrels & ->%list_elem_of_singleton).
    rewrite bool_decide_eq_false_2 in Hrels by done.
    apply list_elem_of_omap in Hrels as ([key nd] & Hin%elem_of_map_to_list & Hsel).
    simpl in Hsel. rewrite app_nil_r in Hsel.
    destruct (Posix.below base key) as [[|name [|??]]|] eqn:Hbelow; try done.
    apply below_spec in Hbelow as ->.
    destruct (Posix.fnmatch seg name) eqn:Hmatch; simplify_eq/=.
    by exists name, nd.
  - intros (name & nd & Hnode & Hmatch & ->). exists []. split; [|by left].
    rewrite bool_decide_eq_false_2 by done.
    apply list_elem_of_omap. exists (base ++ [name], nd).
    split; [by apply elem_of_map_to_list|]. simpl. rewrite app_nil_r.
    assert (Posix.below base (base ++ [name]) = Some [name]) as -> by by apply below_spec.
    by rewrite Hmatch.
Qed.

(** Non-recursive discovery on a directory: the result holds exactly the
    entries of the directory, files and directories alike, whose name ends
    in [.txt], each as the path of the directory extended by the name;
    nothing from below a subdirectory, nothing with another ending. *)
Lemma scan_directory_children cwd directory (w : World Posix.machine) :
  @path_is_dir _ (Posix.os_at cwd) directory (os w) = Ok true →
  ∃ base found,
    Posix.locate_path cwd (Posix.tree (os w)) directory = inr base
    ∧ @scan_directory _ (Posix.os_at cwd) directory false w = (Ok found, w)
    ∧ ∀ p, p ∈ found
           ↔ ∃ name nd, Posix.tree (os w) !! (base ++ [name]) = Some nd
                        ∧ (∃ stem, name = stem +:+ ".txt")
                        ∧ p = Posix.path_str directory [name].
Proof.
  intros Hdir. cbn [path_is_dir Posix.os_at] in Hdir.
  unfold Posix.is_dir, Posix.stat in Hdir.
  destruct (Posix.locate_path cwd (Posix.tree (os w)) directory) as [code|base] eqn:Hbase;
    [by destruct (Posix.ignored code)|].
  destruct (Posix.node_at (Posix.tree (os w)) base) as [[|]|] eqn:Hnode;
    [done| |done].
  eexists base, _. split; [done|]. split.
  { rewrite (@scan_directory_cases _ (Posix.os_at cwd)).
    cbn [path_exists path_is_dir path_glob Posix.os_at].
    unfold Posix.is_dir, Posix.exists_, Posix.stat, Posix.glob, Posix.dir_at.
    rewrite Hbase, Hnode. reflexivity. }
  intros p. rewrite list_elem_of_fmap. setoid_rewrite elem_of_remove_dups.
  change (Posix.select_all (Posix.tree (os w)) base _ [[]])
    with (Posix.select (Posix.tree (os w)) base "*.txt" true [[]]).
  setoid_rewrite select_children; [|done]. setoid_rewrite fnmatch_txt.
  split.
  - intros (rels & -> & name & nd & Hnode' & Hname & ->). by exists name, nd.
  - intros (name & nd & Hnode' & Hname & ->). exists [name]. split; [done|].
    by exists name, nd.
Qed.

End PosixFacts.

(** ** Runs on concrete machines *)

(** The three-file batch of C1, on a machine where the second file does not
    exist. *)
Lemma process_files_isolates_failures_witness :
  let files := ["d/a.txt"; "d/zz.txt"; "d/b.txt"] in
  let w := Posix.boot demo [] in
  let e := Posix.os_error Posix.ENOENT "d/zz.txt" in
  let r1 := process_file files "world" "there" (Some ">> ") None None "d/a.txt" w in
  let r2 := read_text "d/zz.txt" r1.2 in
  let r3 := process_file files "world" "there" (Some ">> ") None None "d/b.txt" r2.2 in
  let run := outcomes files "world" "there" (Some ">> ") None None files w in
  (files = ["d/a.txt"; "d/zz.txt"; "d/b.txt"]
   ∧ r1.1 = Ok () ∧ r2.1 = Raise e ∧ r3.1 = Ok ()
   ∧ ("d/zz.txt", Raise e) ∈ run.1)
  ∧ process_files files "world" "there" (Some ">> ") None None w
    = (Ok (2, 1, [error_entry "d/zz.txt" e]), r3.2)
  ∧ error_entry "d/zz.txt" e ∈ failure_entries run.1.
Proof.
  intros files w e r1 r2 r3 run.
  assert (("d/zz.txt", Raise e) ∈ run.1) as Hin.
  { apply list_elem_of_In. vm_compute. tauto. }
  split; [split_and!; [vm_compute; reflexivity..|exact Hin]|].
  pose proof (process_files_isolates_failures files "world" "there" (Some ">> ")
                None None w "d/a.txt" "d/zz.txt" "d/b.txt" e) as [Hrun Hthree].
  split.
  - apply Hthree; vm_compute; reflexivity.
  - destruct Hrun as (_ & _ & _ & Hentry). exact (proj1 (Hentry "d/zz.txt" e Hin)).
Defined.

Example batch_of_three :
  (process_files ["d/a.txt"; "d/zz.txt"; "d/b.txt"] "world" "there" None None None
     (Posix.boot demo [])).1
  = Ok (2, 1, ["Error processing d/zz.txt: [Errno 2] No such file or directory: 'd/zz.txt'"]).
Proof. vm_compute. reflexivity. Qed.

Lemma process_files_mirrored_witness :
  let files := ["d/a.txt"; "d/sub/e.txt"] in
  "out" ≠ ""
  ∧ ∃ chunks,
      calls (process_files files "world" "there" None None (Some "out")
               (Posix.boot demo [])).2
      = calls (Posix.boot demo []) ++ concat chunks
      ∧ Forall2 (mirrored_ops "world" "there" None None "out"
                   (os_path_dirname (default "" (head files)))) files chunks
      ∧ perform_all (concat chunks) (os (Posix.boot demo []))
        = (concat chunks,
           os (process_files files "world" "there" None None (Some "out")
                 (Posix.boot demo [])).2).
Proof.
  intros files. split; [discriminate|].
  apply (process_files_mirrored files "world" "there" None None "out"
           (Posix.boot demo [])). discriminate.
Defined.

Example mirrored_batch :
  calls (process_files ["d/a.txt"; "d/sub/e.txt"] "world" "there" None None (Some "out")
           (Posix.boot demo [])).2
  = [SysRead "d/a.txt" (Ok "hello world");
     SysMakedirs "out" (Ok ());
     SysWrite "out/a.txt" "hello there" (Ok ());
     SysRead "d/sub/e.txt" (Ok "deep");
     SysMakedirs "out/sub" (Ok ());
     SysWrite "out/sub/e.txt" "deep" (Ok ())].
Proof. vm_compute. reflexivity. Qed.

(** After the mirrored batch the destinations exist below [out] and the
    sources are as they were. *)
Example mirrored_batch_machine :
  let m := os (process_files ["d/a.txt"; "d/sub/e.txt"] "world" "there" None None
                 (Some "out") (Posix.boot demo [])).2 in
  path_is_dir "out/sub" m = Ok true
  ∧ (open_read "out/sub/e.txt" m).1 = Ok "deep"
  ∧ (open_read "out/a.txt" m).1 = Ok "hello there"
  ∧ (open_read "d/a.txt" m).1 = Ok "hello world".
Proof. split_and!; vm_compute; reflexivity. Qed.

(** The anchor is the directory of the first file also when that file lies
    deeper than the others: the destination of [d/a.txt] then leaves
    [out]. *)
Example mirrored_anchor_of_first_file :
  calls (process_files ["d/sub/e.txt"; "d/a.txt"] "world" "there" None None (Some "out")
           (Posix.boot demo [])).2
  = [SysRead "d/sub/e.txt" (Ok "deep");
     SysMakedirs "out" (Ok ());
     SysWrite "out/e.txt" "deep" (Ok ());
     SysRead "d/a.txt" (Ok "hello world");
     SysMakedirs "out/.." (Ok ());
     SysWrite "out/../a.txt" "hello there" (Ok ())].
Proof. vm_compute. reflexivity. Qed.

Lemma scan_directory_no_directory_witness :
  (path_exists "nowhere" (os (Posix.boot demo [])) = Ok false
   ∨ (path_exists "nowhere" (os (Posix.boot demo [])) = Ok true
      ∧ path_is_dir "nowhere" (os (Posix.boot demo [])) = Ok false))
  ∧ scan_directory "nowhere" true (Posix.boot demo []) = (Ok [], Posix.boot demo []).
Proof.
  split; [left; vm_compute; reflexivity|].
  apply (scan_directory_no_directory "nowhere" true (Posix.boot demo [])).
  left. vm_compute. reflexivity.
Defined.

(** C5 does not hold for every root that does not exist: for a root whose
    name is longer than a file name can be, the [stat] behind [exists()]
    fails with [ENAMETOOLONG], which [exists()] does not take for a no, and
    [scan_directory] raises the error instead of returning the empty
    list, with either value of the recursive flag. *)
Lemma scan_directory_name_too_long :
  let directory := repeat_str "a" 300 in
  let w := Posix.boot demo [] in
  Posix.tree (os w) !! [directory] = None
  ∧ scan_directory directory false w
    = (Raise (Posix.os_error Posix.ENAMETOOLONG directory), w)
  ∧ scan_directory directory true w
    = (Raise (Posix.os_error Posix.ENAMETOOLONG directory), w).
Proof. split_and!; vm_compute; reflexivity. Qed.

Example scan_of_a_file :
  (scan_directory "d/a.txt" false (Posix.boot demo [])).1 = Ok [].
Proof. vm_compute. reflexivity. Qed.

(** The directory of the specification's example: [a.txt] and [b.txt] are
    found, [c.log] is not. *)
Example scan_of_plain :
  ∃ found, (scan_directory "d" false (Posix.boot plain [])).1 = Ok found
           ∧ found ≡ₚ ["d/a.txt"; "d/b.txt"].
Proof. eexists. split; [vm_compute; reflexivity|]. apply perm_swap. Qed.

(** C6 does not hold where the directory has a subdirectory whose name ends
    in [.txt]: [glob] yields matching entries of any kind, so the
    subdirectory [d/dir.txt] is among the paths returned, although it is not
    a file and cannot be read as one. *)
Theorem scan_directory_returns_directory :
  let w := Posix.boot demo [] in
  ∃ found,
    (scan_directory "d" false w).1 = Ok found
    ∧ "d/dir.txt" ∈ found
    ∧ path_is_dir "d/dir.txt" (os w) = Ok true
    ∧ (read_text "d/dir.txt" w).1 = Raise (Posix.os_error Posix.EISDIR "d/dir.txt").
Proof.
  eexists. split_and!; [vm_compute; reflexivity | | vm_compute; reflexivity..].
  left.
Qed.

Example answers :
  affirmative "Y" ∧ affirmative "yEs" ∧ negative "n" ∧ negative "NO"
  ∧ ¬ affirmative " y" ∧ ¬ negative " y" ∧ ¬ affirmative "" ∧ ¬ negative "".
Proof.
  unfold affirmative, negative.
  split_and!; try (apply list_elem_of_In; vm_compute; tauto);
    intros Hin%list_elem_of_In; vm_compute in Hin; intuition discriminate.
Qed.


Example confirm_maybe_then_yes :
  (confirm_operation ["d/a.txt"] (Posix.boot demo ["maybe"; "Y"])).1 = Ok true
  ∧ stdout (confirm_operation ["d/a.txt"] (Posix.boot demo ["maybe"; "Y"])).2
    = preview ["d/a.txt"] ++ [confirm_prompt; retry_line; confirm_prompt].
Proof. split; vm_compute; reflexivity. Qed.

(** End of input before an answer: [input()] raises. *)
Example confirm_end_of_input :
  (confirm_operation ["d/a.txt"] (Posix.boot demo ["maybe"])).1
  = Raise (Exception "EOF when reading a line").
Proof. vm_compute. reflexivity. Qed.

(** The end-to-end scenario of the specification: [note.txt] holds
    ["hello world"]; after a confirmed in-place run with target ["world"],
    swap ["there"] and prefix [">> "] it holds [">> hello there"]. *)
Example end_to_end :
  let run := main (mkArgs "notes" "world" "there" (Some ">> ") None false None)
               (Posix.boot notes ["y"]) in
  run.1 = Ok ()
  ∧ (open_read "notes/note.txt" (os run.2)).1 = Ok ">> hello there"
  ∧ calls run.2 = [SysRead "notes/note.txt" (Ok "hello world");
                   SysWrite "notes/note.txt" ">> hello there" (Ok ())].
Proof. split_and!; vm_compute; reflexivity. Qed.

(** * Further properties of the code *)

(** ** Content transform *)

Lemma interleave_empty c : Str.interleave "" c = c.
Proof. exact (after_each_empty c). Qed.

(** A character of two bytes stays whole: ['é'.replace('', '-') == '-é-']. *)
Example interleave_code_point :
  let e_acute := String "195" (String "169" "") in
  Str.chars ("a" +:+ e_acute +:+ "b") = ["a"; e_acute; "b"]
  ∧ Str.replace e_acute "" "-" = "-" +:+ e_acute +:+ "-"
  ∧ Str.replace "abc" "" "-" = "-a-b-c-"
  ∧ Str.replace "" "" "-" = "-".
Proof. split_and!; vm_compute; reflexivity. Qed.

Lemma interleave_join s c :
  Str.interleave s c = Str.join s ([""] ++ Str.chars c ++ [""]).
Proof.
  unfold Str.interleave. rewrite after_each_join.
  change ([""] ++ Str.chars c ++ [""]) with ("" :: (Str.chars c ++ [""])).
  destruct (Str.chars c ++ [""]) eqn:Hparts; [by destruct (Str.chars c)|].
  by rewrite join_cons.
Qed.

(** X1: Without prefix and suffix the transform returns the content as it is
    exactly when the target equals the replacement or does not occur in the
    content. *)
Theorem edit_file_content_unchanged_iff (c t s : string) :
  edit_file_content c t s None None = c ↔ t = s ∨ ¬ Str.occurs t c.
Proof.
  rewrite edit_file_content_plain. split.
  - intros Hsame. destruct (decide (t = s)) as [|Hts]; [by left|]. right.
    intros Hocc. destruct (decide (t = "")) as [->|Ht].
    + simpl in Hsame. apply (f_equal String.length) in Hsame.
      rewrite length_interleave in Hsame. destruct s; [done|]. simpl in Hsame. lia.
    + by apply (replace_changes t s c).
  - intros [->|Hno]; [apply replace_same | by apply replace_absent].
Qed.

(** X2: For a non-empty target the length of the result follows the lengths of
    target and replacement: a replacement no shorter than the target never
    shortens the content, one no longer never lengthens it, and one of the
    same length keeps the length, prefix and suffix added. *)
Theorem edit_file_content_length (c t s : string) (p a : option string) :
  t ≠ "" →
  let added := String.length (default "" p) + String.length (default "" a) in
  (String.length t ≤ String.length s →
   String.length c + added ≤ String.length (edit_file_content c t s p a))
  ∧ (String.length s ≤ String.length t →
     String.length (edit_file_content c t s p a) ≤ String.length c + added)
  ∧ (String.length s = String.length t →
     String.length (edit_file_content c t s p a) = String.length c + added).
Proof.
  intros Ht added. unfold added.
  rewrite edit_file_content_steps, !str_length_app.
  pose proof (replace_length_grow t s c Ht).
  pose proof (replace_length_shrink t s c Ht). lia.
Qed.

Lemma edit_file_content_length_witness :
  "world" ≠ ""
  ∧ String.length "world" ≤ String.length "there"
  ∧ String.length "there" ≤ String.length "world"
  ∧ String.length "there" = String.length "world"
  ∧ String.length (edit_file_content "hello world" "world" "there" (Some ">> ") None)
    = String.length "hello world" + (String.length ">> " + String.length "").
Proof.
  split_and!; [discriminate | simpl; lia.. |].
  apply (edit_file_content_length "hello world" "world" "there" (Some ">> ") None);
    [discriminate | reflexivity].
Defined.

(** X3: With an empty target the replacement is put before every character
    of the content and after the last one, a character being a code point
    of the text and not a byte of its UTF-8 form: the result is the prefix,
    then the characters of the content, which make up the content and none
    of which is empty, with the replacement before, between and behind them,
    then the suffix.  It is longer than the content by one replacement
    per character and one more, prefix and suffix added. *)
Theorem edit_file_content_empty_target (c s : string) (p a : option string) :
  edit_file_content c "" s p a
  = (default "" p +:+ Str.join s ([""] ++ Str.chars c ++ [""])) +:+ default "" a
  ∧ Str.join "" (Str.chars c) = c
  ∧ Forall (λ x, x ≠ "") (Str.chars c)
  ∧ String.length (edit_file_content c "" s p a)
    = String.length (default "" p)
      + (String.length c + S (length (Str.chars c)) * String.length s)
      + String.length (default "" a).
Proof.
  split_and!; [|apply join_chars|apply chars_not_empty|].
  - rewrite edit_file_content_steps. simpl Str.replace. by rewrite interleave_join.
  - rewrite edit_file_content_steps, !str_length_app. simpl Str.replace.
    by rewrite length_interleave.
Qed.

(** X4: A content in which the target does not occur only receives the prefix
    and the suffix. *)
Theorem edit_file_content_absent (c t s : string) (p a : option string) :
  ¬ Str.occurs t c →
  edit_file_content c t s p a = (default "" p +:+ c) +:+ default "" a.
Proof. intros Hno. by rewrite edit_file_content_steps, replace_absent. Qed.

Lemma edit_file_content_absent_witness :
  ¬ Str.occurs "world" "hello there"
  ∧ edit_file_content "hello there" "world" "moon" (Some ">> ") (Some "!")
    = (default "" (Some ">> ") +:+ "hello there") +:+ default "" (Some "!").
Proof.
  assert (¬ Str.occurs "world" "hello there") as Hno by decide_occurs.
  split; [exact Hno|].
  exact (edit_file_content_absent "hello there" "world" "moon" (Some ">> ") (Some "!") Hno).
Defined.

(** ** Batch runner *)

Section BatchOperations.
Context {W : Type} `{!OS W}.
Implicit Types (files todo : list string) (w : World W) (ops : list syscall).

Lemma reads_app ops ops' : reads (ops ++ ops') = reads ops ++ reads ops'.
Proof. apply omap_app. Qed.

Lemma writes_done_app ops ops' :
  writes_done (ops ++ ops') = writes_done ops + writes_done ops'.
Proof. unfold writes_done. by rewrite filter_app, length_app. Qed.

(** The [try] block of one file: the file is opened for reading once, one
    write goes through when the block succeeds and none when it fails, and
    the console is left alone. *)
Lemma process_file_ops files target swap prepend append output_dir file_path w :
  ∃ ops,
    calls (process_file files target swap prepend append output_dir file_path w).2
    = calls w ++ ops
    ∧ reads ops = [file_path]
    ∧ writes_done ops
      = (if is_ok (process_file files target swap prepend append output_dir
                     file_path w).1 then 1 else 0)
    ∧ stdin (process_file files target swap prepend append output_dir file_path w).2
      = stdin w
    ∧ stdout (process_file files target swap prepend append output_dir file_path w).2
      = stdout w.
Proof.
  unfold process_file.
  unfold mbind, M_bind, read_text, write_text, makedirs, relpath, index, raise,
    mret, M_ret, record_call.
  cbn [fst snd os calls stdin stdout].
  destruct (open_read file_path (os w)) as [[content|e] o]; cbn [fst snd];
    [|by eexists [_]].
  destruct (Str.truthy_opt output_dir).
  - destruct (files !! 0) as [first|]; [|by eexists [_]].
    destruct (os_path_relpath file_path (os_path_dirname first)) as [rel_path|e];
      [|by eexists [_]].
    cbn [fst snd os calls stdin stdout].
    destruct (os_makedirs _ o) as [[[]|e] o']; cbn [fst snd os calls stdin stdout].
    + destruct (open_write _ _ o') as [[[]|e] o'']; cbn [fst snd calls stdin stdout];
        eexists [_; _; _]; by rewrite <- !app_assoc.
    + eexists [_; _]. by rewrite <- !app_assoc.
  - cbn [fst snd os calls stdin stdout].
    destruct (open_write _ _ o) as [[[]|e] o']; cbn [fst snd calls stdin stdout];
      eexists [_; _]; by rewrite <- !app_assoc.
Qed.

Lemma outcomes_ops files target swap prepend append output_dir todo w :
  let run := outcomes files target swap prepend append output_dir todo w in
  ∃ ops,
    calls run.2 = calls w ++ ops
    ∧ reads ops = todo
    ∧ writes_done ops = succeeded run.1
    ∧ stdin run.2 = stdin w
    ∧ stdout run.2 = stdout w.
Proof.
  revert w. induction todo as [|file_path todo IH]; intros w.
  - exists []. simpl. by rewrite app_nil_r.
  - cbn [outcomes]. cbn zeta.
    destruct (process_file_ops files target swap prepend append output_dir file_path w)
      as (ops & Hcalls & Hreads & Hwrites & Hin & Hout).
    destruct (process_file files target swap prepend append output_dir file_path w)
      as [r w'].
    cbn [fst snd] in *.
    destruct (IH w') as (ops' & Hcalls' & Hreads' & Hwrites' & Hin' & Hout').
    exists (ops ++ ops'). cbn [fst snd].
    rewrite Hcalls', Hcalls, Hin', Hin, Hout', Hout, reads_app, writes_done_app,
      Hreads, Hreads', Hwrites, Hwrites', app_assoc.
    split_and!; try done.
    destruct r as [u|e]; cbn [is_ok].
    + by destruct (tally_ok file_path u
                     (outcomes files target swap prepend append output_dir todo w').1)
        as (-> & _).
    + by destruct (tally_raise file_path e
                     (outcomes files target swap prepend append output_dir todo w').1)
        as (-> & _).
Qed.

(** X5: An output directory given as the empty string counts as none: the batch
    runs in place, every file is written back to the path it was read from
    and no directory is created. *)
Theorem process_files_empty_output files target swap prepend append w :
  process_files files target swap prepend append (Some "") w
  = process_files files target swap prepend append None w
  ∧ ∃ chunks,
      calls (process_files files target swap prepend append (Some "") w).2
      = calls w ++ concat chunks
      ∧ Forall2 (in_place_ops target swap prepend append) files chunks.
Proof.
  split; [reflexivity|].
  apply batch_calls. intros file_path w' _. by apply process_file_in_place.
Qed.

(** X6: Whatever the mode and whatever fails, every file of the batch is opened
    for reading exactly once, in the order of the list, and the number of
    files counted as succeeded is the number of writes that went through. *)
Theorem process_files_reads_and_writes files target swap prepend append output_dir w :
  ∃ ops success_count error_count error_log,
    process_files files target swap prepend append output_dir w
    = (Ok (success_count, error_count, error_log),
       (process_files files target swap prepend append output_dir w).2)
    ∧ calls (process_files files target swap prepend append output_dir w).2
      = calls w ++ ops
    ∧ reads ops = files
    ∧ writes_done ops = success_count.
Proof.
  rewrite process_files_run. cbn zeta.
  destruct (outcomes_ops files target swap prepend append output_dir files w)
    as (ops & Hcalls & Hreads & Hwrites & _).
  exists ops. eexists _, _, _. split_and!; [reflexivity|done..].
Qed.

(** X7: The batch runner reads nothing from standard input and writes nothing to
    standard output. *)
Theorem process_files_silent files target swap prepend append output_dir w :
  stdin (process_files files target swap prepend append output_dir w).2 = stdin w
  ∧ stdout (process_files files target swap prepend append output_dir w).2 = stdout w.
Proof.
  rewrite process_files_run. cbn zeta.
  by destruct (outcomes_ops files target swap prepend append output_dir files w)
    as (ops & _ & _ & _ & Hin & Hout).
Qed.

End BatchOperations.

(** ** Interactive confirmation *)

Section Answers.
Context {W : Type} `{!OS W}.
Implicit Types (files pending : list string) (w : World W).









End Answers.


(** ** Main *)

Section MainRuns.
Context {W : Type} `{!OS W}.
Implicit Types (files : list string) (w : World W) (args : Args).

Lemma scan_directory_world directory recursive w :
  (scan_directory directory recursive w).2 = w.
Proof. apply scan_directory_pure. Qed.

Lemma scan_directory_result directory recursive w r :
  (scan_directory directory recursive w).1 = r →
  scan_directory directory recursive w = (r, w).
Proof.
  intros <-. rewrite <- (scan_directory_world directory recursive w) at 3.
  by destruct (scan_directory directory recursive w).
Qed.


(** X10: A confirmed run in which no file fails ends with the two summary lines
    and writes no log file: its file operations are those of the batch. *)
Theorem main_clean_run args files w success_count error_log :
  (scan_directory (args_path args) (args_recursive args) w).1 = Ok files →
  files ≠ [] →
  (confirm_operation files w).1 = Ok true →
  let batch := process_files files (args_target args) (args_swap args)
                 (args_prepend args) (args_append args) (args_output args)
                 (confirm_operation files w).2 in
  batch.1 = Ok (success_count, 0, error_log) →
  main args w
  = (Ok (),
     written [(newline +:+ "Operation complete!") +:+ newline;
              ("Successfully processed: " +:+ pretty success_count +:+ " files")
              +:+ newline] batch.2).
Proof.
  intros Hscan%scan_directory_result Hfiles Hyes batch Hbatch.
  unfold main. erewrite bind_ok; [|reflexivity].
  unfold try_except. erewrite bind_ok; [|exact Hscan].
  rewrite bool_decide_eq_false_2 by done.
  destruct (confirm_operation files w) as [confirmed w1] eqn:Hconfirm.
  simpl in Hyes, batch. subst confirmed.
  erewrite bind_ok; [|exact Hconfirm]. cbn [negb].
  destruct batch as [r w2] eqn:Hrun. simpl in Hbatch. subst r.
  erewrite bind_ok; [|exact Hrun]. cbn beta iota.
  erewrite bind_ok; [|apply print_written].
  erewrite bind_ok; [|apply print_written].
  rewrite bool_decide_eq_false_2 by lia. by rewrite written_written.
Qed.

(** X11: A confirmed run in which files fail ends with four summary lines and
    then writes the log file named at the start of the run: the header
    followed by one line per entry of the error log.  When that write goes
    through, [main] returns normally. *)
Theorem main_logs_failures args files w log_filename success_count error_count error_log :
  (setup_logging w).1 = Ok log_filename →
  (scan_directory (args_path args) (args_recursive args) w).1 = Ok files →
  files ≠ [] →
  (confirm_operation files w).1 = Ok true →
  let batch := process_files files (args_target args) (args_swap args)
                 (args_prepend args) (args_append args) (args_output args)
                 (confirm_operation files w).2 in
  batch.1 = Ok (success_count, error_count, error_log) →
  0 < error_count →
  let data := log_header batch.2 +:+ concat_lines error_log in
  (open_write log_filename data (os batch.2)).1 = Ok () →
  (main args w).1 = Ok ()
  ∧ calls (main args w).2 = calls batch.2 ++ [SysWrite log_filename data (Ok ())]
  ∧ stdout (main args w).2
    = stdout batch.2
      ++ [(newline +:+ "Operation complete!") +:+ newline;
          ("Successfully processed: " +:+ pretty success_count +:+ " files") +:+ newline;
          ("Errors encountered: " +:+ pretty error_count +:+ " files") +:+ newline;
          ("See " +:+ log_filename +:+ " for details") +:+ newline].
Proof.
  intros [= <-] Hscan%scan_directory_result Hfiles Hyes batch Hbatch Herrors data Hwrite.
  unfold main. erewrite bind_ok; [|reflexivity].
  unfold try_except. erewrite bind_ok; [|exact Hscan].
  rewrite bool_decide_eq_false_2 by done.
  destruct (confirm_operation files w) as [confirmed w1] eqn:Hconfirm.
  simpl in Hyes, batch. subst confirmed.
  erewrite bind_ok; [|exact Hconfirm]. cbn [negb].
  destruct batch as [r w2] eqn:Hrun. simpl in Hbatch, data, Hwrite. subst r.
  erewrite bind_ok; [|exact Hrun]. cbn beta iota.
  erewrite bind_ok; [|apply print_written].
  erewrite bind_ok; [|apply print_written].
  rewrite bool_decide_eq_true_2 by done.
  erewrite bind_ok; [|apply print_written].
  erewrite bind_ok; [|apply print_written].
  rewrite !written_written.
  unfold write_error_log, write_text, log_header, written, record_call.
  cbn [os stdin stdout calls fst snd app]. fold data.
  unfold data, log_header in Hwrite |- *.
  destruct (open_write _ _ (os w2)) as [r o]. simpl in Hwrite. subst r. done.
Qed.

(** X12: An exception leaves [main] only when the log of a fatal error cannot be
    written: whenever [main] raises, the last file operation is the failed
    write of the log file, and the exception is the one of that write. *)
Theorem main_raises_only_from_fatal_log args w log_filename e :
  (setup_logging w).1 = Ok log_filename →
  (main args w).1 = Raise e →
  ∃ data, last (calls (main args w).2) = Some (SysWrite log_filename data (Raise e)).
Proof.
  intros [= <-]. unfold main. erewrite bind_ok; [|reflexivity].
  unfold try_except.
  match goal with
  | |- context [match ?body with _ => _ end] => destruct body as [[[]|e0] w']
  end; [done|].
  erewrite bind_ok; [|apply print_written].
  unfold write_fatal_log, write_text, record_call. cbn [fst snd calls].
  intros ->. eexists. by rewrite last_snoc.
Qed.

(** X13: A failure of the directory listing is fatal: [main] reports it, writes
    the log of the fatal error and performs no other file operation; what it
    returns is the outcome of that write. *)
Theorem main_discovery_fails args w log_filename e :
  (setup_logging w).1 = Ok log_filename →
  (scan_directory (args_path args) (args_recursive args) w).1 = Raise e →
  let data := log_header w
              +:+ ("Fatal error: " +:+ str_exn e +:+ newline)
              +:+ ("Traceback: " +:+ exc_info_str e (os w) +:+ newline) in
  let outcome := (open_write log_filename data (os w)).1 in
  (main args w).1 = outcome
  ∧ calls (main args w).2 = calls w ++ [SysWrite log_filename data outcome]
  ∧ stdout (main args w).2
    = stdout w ++ [("An error occurred: " +:+ str_exn e) +:+ newline]
  ∧ stdin (main args w).2 = stdin w.
Proof.
  intros [= <-] Hscan%scan_directory_result data outcome.
  unfold main. erewrite bind_ok; [|reflexivity].
  unfold try_except. erewrite bind_raise; [|exact Hscan].
  erewrite bind_ok; [|apply print_written].
  unfold write_fatal_log, write_text, record_call, written, log_header.
  by cbn [fst snd os stdin stdout calls].
Qed.


End MainRuns.


Lemma main_clean_run_witness :
  let args := mkArgs "notes" "world" "there" (Some ">> ") None false None in
  let w := Posix.boot notes ["y"] in
  let files := ["notes/note.txt"] in
  let batch := process_files files "world" "there" (Some ">> ") None None
                 (confirm_operation files w).2 in
  ((scan_directory (args_path args) (args_recursive args) w).1 = Ok files
   ∧ files ≠ []
   ∧ (confirm_operation files w).1 = Ok true
   ∧ batch.1 = Ok (1, 0, []))
  ∧ main args w
    = (Ok (),
       written [(newline +:+ "Operation complete!") +:+ newline;
                ("Successfully processed: " +:+ pretty 1 +:+ " files") +:+ newline]
         batch.2).
Proof.
  intros args w files batch.
  assert ((scan_directory (args_path args) (args_recursive args) w).1 = Ok files) as Hscan
    by (vm_compute; reflexivity).
  assert (files ≠ []) as Hfiles by discriminate.
  assert ((confirm_operation files w).1 = Ok true) as Hyes by (vm_compute; reflexivity).
  assert (batch.1 = Ok (1, 0, [])) as Hbatch by (vm_compute; reflexivity).
  split; [by split_and!|].
  exact (main_clean_run args files w 1 [] Hscan Hfiles Hyes Hbatch).
Defined.

Lemma main_logs_failures_witness :
  let args := mkArgs "d" "world" "there" None None false None in
  let w := Posix.boot demo ["y"] in
  let files := ["d/dir.txt"; "d/b.txt"; "d/a.txt"] in
  let log_filename := "caption_edit_log_20240101_120000.txt" in
  let error_log := [error_entry "d/dir.txt" (Posix.os_error Posix.EISDIR "d/dir.txt")] in
  let batch := process_files files "world" "there" None None None
                 (confirm_operation files w).2 in
  let data := log_header batch.2 +:+ concat_lines error_log in
  ((setup_logging w).1 = Ok log_filename
   ∧ (scan_directory (args_path args) (args_recursive args) w).1 = Ok files
   ∧ files ≠ []
   ∧ (confirm_operation files w).1 = Ok true
   ∧ batch.1 = Ok (2, 1, error_log)
   ∧ 0 < 1
   ∧ (open_write log_filename data (os batch.2)).1 = Ok ())
  ∧ (main args w).1 = Ok ()
  ∧ calls (main args w).2 = calls batch.2 ++ [SysWrite log_filename data (Ok ())].
Proof.
  intros args w files log_filename error_log batch data.
  assert ((setup_logging w).1 = Ok log_filename) as Hname by reflexivity.
  assert ((scan_directory (args_path args) (args_recursive args) w).1 = Ok files) as Hscan
    by (vm_compute; reflexivity).
  assert (files ≠ []) as Hfiles by discriminate.
  assert ((confirm_operation files w).1 = Ok true) as Hyes by (vm_compute; reflexivity).
  assert (batch.1 = Ok (2, 1, error_log)) as Hbatch by (vm_compute; reflexivity).
  assert (0 < 1) as Herrors by lia.
  assert ((open_write log_filename data (os batch.2)).1 = Ok ()) as Hwrite
    by (vm_compute; reflexivity).
  split; [by split_and!|].
  pose proof (main_logs_failures args files w log_filename 2 1 error_log
                Hname Hscan Hfiles Hyes Hbatch Herrors Hwrite) as (Hok & Hcalls & _).
  by split.
Defined.

Lemma main_raises_only_from_fatal_log_witness :
  let args := mkArgs "d" "world" "there" None None false None in
  let w := Posix.boot blocked [] in
  let log_filename := "caption_edit_log_20240101_120000.txt" in
  let e := Posix.os_error Posix.EISDIR log_filename in
  ((setup_logging w).1 = Ok log_filename ∧ (main args w).1 = Raise e)
  ∧ ∃ data, last (calls (main args w).2) = Some (SysWrite log_filename data (Raise e)).
Proof.
  intros args w log_filename e.
  assert ((setup_logging w).1 = Ok log_filename) as Hname by reflexivity.
  assert ((main args w).1 = Raise e) as Hraise by (vm_compute; reflexivity).
  split; [by split|].
  exact (main_raises_only_from_fatal_log args w log_filename e Hname Hraise).
Defined.

Lemma main_discovery_fails_witness :
  let args := mkArgs "d" "world" "there" None None false None in
  let w := Posix.boot demo ["y"] in
  let log_filename := "caption_edit_log_20240101_120000.txt" in
  let e := Posix.os_error Posix.ENOENT "d" in
  ((@setup_logging _ unlisted_os w).1 = Ok log_filename
   ∧ (@scan_directory _ unlisted_os (args_path args) (args_recursive args) w).1 = Raise e)
  ∧ (@main _ unlisted_os args w).1 = Ok ()
  ∧ reads (calls (@main _ unlisted_os args w).2) = [].
Proof.
  intros args w log_filename e.
  assert ((@setup_logging _ unlisted_os w).1 = Ok log_filename) as Hname by reflexivity.
  assert ((@scan_directory _ unlisted_os (args_path args) (args_recursive args) w).1
          = Raise e) as Hscan by (vm_compute; reflexivity).
  split; [by split|].
  pose proof (@main_discovery_fails _ unlisted_os args w log_filename e Hname Hscan)
    as (Hout & Hcalls & _).
  split.
  - rewrite Hout. vm_compute. reflexivity.
  - rewrite Hcalls. reflexivity.
Defined.


(** ** Runs of the code on the POSIX-like machine *)

Section PosixRuns.
Implicit Types (t : gmap (list string) Posix.node) (base key rels : list string)
  (name seg : string) (cwd : list string) (w : World Posix.machine).

(** A final, non-recursive segment selects, from every directory found, the
    entries whose name matches. *)
Lemma select_entries t base seg found r :
  seg ≠ "**" →
  r ∈ Posix.select t base seg true found
  ↔ ∃ rels name nd, rels ∈ found
                    ∧ t !! ((base ++ rels) ++ [name]) = Some nd
                    ∧ Posix.fnmatch seg name = true ∧ r = rels ++ [name].
Proof.
  intros Hseg. unfold Posix.select. rewrite list_elem_of_bind.
  setoid_rewrite (bool_decide_eq_false_2 _ Hseg). split.
  - intros (rels & Hr & Hrels).
    apply list_elem_of_omap in Hr as ([key nd] & Hin%elem_of_map_to_list & Hsel).
    simpl in Hsel.
    destruct (Posix.below (base ++ rels) key) as [[|name [|??]]|] eqn:Hbelow; try done.
    apply below_spec in Hbelow as ->.
    destruct (Posix.fnmatch seg name) eqn:Hmatch; simplify_eq/=.
    by exists rels, name, nd.
  - intros (rels & name & nd & Hrels & Hnode & Hmatch & ->). exists rels. split; [|done].
    apply list_elem_of_omap. exists ((base ++ rels) ++ [name], nd).
    split; [by apply elem_of_map_to_list|]. simpl.
    assert (Posix.below (base ++ rels) ((base ++ rels) ++ [name]) = Some [name]) as ->
      by by apply below_spec.
    by rewrite Hmatch.
Qed.

(** The recursive segment selects the directory itself and the directories
    below it that are reached through directories. *)
Lemma select_directories t base rels :
  rels ∈ Posix.select t base "**" false [[]]
  ↔ rels = [] ∨ (rels ≠ [] ∧ Posix.dir_at t (base ++ rels) = true
                 ∧ Posix.reachable t base rels = true).
Proof.
  unfold Posix.select. rewrite list_elem_of_bind.
  setoid_rewrite list_elem_of_singleton. split.
  - intros (found & Hrels & ->). rewrite bool_decide_eq_true_2 in Hrels by done.
    apply elem_of_cons in Hrels as [->|Hrels]; [by left|]. right.
    apply list_elem_of_omap in Hrels as ([key nd] & _ & Hsel). simpl in Hsel.
    rewrite app_nil_r in Hsel.
    destruct (Posix.below base key) as [rel|] eqn:Hbelow; [|done].
    apply below_spec in Hbelow as ->. simpl in Hsel.
    destruct (bool_decide (rel = [])) eqn:Hrel; [done|].
    destruct (Posix.dir_at t (base ++ rel)) eqn:Hdir; [|done].
    destruct (Posix.reachable t base rel) eqn:Hreach; [|done].
    simpl in Hsel. injection Hsel as <-. by apply bool_decide_eq_false in Hrel.
  - intros [->|(Hne & Hdir & Hreach)]; exists []; (split; [|done]);
      rewrite bool_decide_eq_true_2 by done; [left|right].
    apply list_elem_of_omap. exists (base ++ rels, Posix.Dir). split.
    + apply elem_of_map_to_list. unfold Posix.dir_at, Posix.node_at in Hdir.
      destruct (base ++ rels) as [|??] eqn:Hkey.
      { apply app_eq_nil in Hkey as [_ ->]. done. }
      by destruct (t !! _) as [[]|].
    + simpl. rewrite app_nil_r.
      assert (Posix.below base (base ++ rels) = Some rels) as -> by by apply below_spec.
      simpl. by rewrite bool_decide_eq_false_2, Hdir, Hreach.
Qed.

Lemma scan_directory_deep cwd directory w :
  @path_is_dir _ (Posix.os_at cwd) directory (os w) = Ok true →
  ∃ base found,
    Posix.locate_path cwd (Posix.tree (os w)) directory = inr base
    ∧ @scan_directory _ (Posix.os_at cwd) directory true w = (Ok found, w)
    ∧ ∀ p, p ∈ found
           ↔ ∃ rels name nd,
               Posix.dir_at (Posix.tree (os w)) (base ++ rels) = true
               ∧ Posix.reachable (Posix.tree (os w)) base rels = true
               ∧ Posix.tree (os w) !! ((base ++ rels) ++ [name]) = Some nd
               ∧ (∃ stem, name = stem +:+ ".txt")
               ∧ p = Posix.path_str directory (rels ++ [name]).
Proof.
  intros Hdir. cbn [path_is_dir Posix.os_at] in Hdir.
  unfold Posix.is_dir, Posix.stat in Hdir.
  destruct (Posix.locate_path cwd (Posix.tree (os w)) directory) as [code|base] eqn:Hbase;
    [by destruct (Posix.ignored code)|].
  destruct (Posix.node_at (Posix.tree (os w)) base) as [[|]|] eqn:Hnode;
    [done| |done].
  eexists base, _. split; [done|]. split.
  { rewrite (@scan_directory_cases _ (Posix.os_at cwd)).
    cbn [path_exists path_is_dir path_glob Posix.os_at].
    unfold Posix.is_dir, Posix.exists_, Posix.stat, Posix.glob, Posix.dir_at.
    rewrite Hbase, Hnode. reflexivity. }
  intros p. rewrite list_elem_of_fmap. setoid_rewrite elem_of_remove_dups.
  change (Posix.select_all (Posix.tree (os w)) base _ [[]])
    with (Posix.select (Posix.tree (os w)) base "*.txt" true
            (Posix.select (Posix.tree (os w)) base "**" false [[]])).
  setoid_rewrite select_entries; [|done]. setoid_rewrite fnmatch_txt.
  setoid_rewrite select_directories. split.
  - intros (r & -> & rels & name & nd & Hrels & Hnode' & Hname & ->).
    exists rels, name, nd. split_and!; try done.
    + destruct Hrels as [->|(_ & ? & _)]; [|done].
      rewrite app_nil_r. unfold Posix.dir_at. by rewrite Hnode.
    + by destruct Hrels as [->|(_ & _ & ?)].
  - intros (rels & name & nd & Hdirs & Hreach & Hnode' & Hname & ->).
    exists (rels ++ [name]). split; [done|]. exists rels, name, nd.
    split_and!; try done.
    destruct rels; [by left | by right].
Qed.

(** X15: Recursive discovery on a directory: the result holds exactly the
    entries whose name ends in [.txt] of the directory and of every
    directory below it that is reached through directories, each as the path
    of the scanned directory extended by the names on the way; and whatever
    the non-recursive discovery returns, the recursive one returns too. *)
Theorem scan_directory_descendants cwd directory w :
  @path_is_dir _ (Posix.os_at cwd) directory (os w) = Ok true →
  ∃ base found,
    Posix.locate_path cwd (Posix.tree (os w)) directory = inr base
    ∧ @scan_directory _ (Posix.os_at cwd) directory true w = (Ok found, w)
    ∧ (∀ p, p ∈ found
            ↔ ∃ rels name nd,
                Posix.dir_at (Posix.tree (os w)) (base ++ rels) = true
                ∧ Posix.reachable (Posix.tree (os w)) base rels = true
                ∧ Posix.tree (os w) !! ((base ++ rels) ++ [name]) = Some nd
                ∧ (∃ stem, name = stem +:+ ".txt")
                ∧ p = Posix.path_str directory (rels ++ [name]))
    ∧ ∀ flat p,
        (@scan_directory _ (Posix.os_at cwd) directory false w).1 = Ok flat →
        p ∈ flat → p ∈ found.
Proof.
  intros Hisdir.
  destruct (scan_directory_children cwd directory w Hisdir)
    as (base' & flat' & Hbase' & Hflat' & Hchildren).
  destruct (scan_directory_deep cwd directory w Hisdir)
    as (base & found & Hbase & Hfound & Hdeep).
  exists base, found. split_and!; [done..|].
  intros flat p Hflat Hp. rewrite Hflat' in Hflat. injection Hflat as <-.
  apply Hchildren in Hp as (name & nd & Hnode & Hname & ->).
  rewrite Hbase in Hbase'. injection Hbase' as <-.
  apply Hdeep. exists [], name, nd. rewrite app_nil_r. split_and!; try done.
  revert Hisdir. cbn [path_is_dir Posix.os_at].
  unfold Posix.is_dir, Posix.stat, Posix.dir_at. rewrite Hbase.
  by destruct (Posix.node_at (Posix.tree (os w)) base) as [[|]|].
Qed.

(** A string without a slash is one name. *)
Lemma split_one_name s : ¬ Str.occurs "/" s → Posix.split Posix.slash s = [s].
Proof.
  induction s as [|ch s IH]; intros Hno; [done|].
  cbn [Posix.split]. case_decide as Hch.
  - subst ch. destruct Hno. by exists "", s.
  - rewrite IH; [done|]. intros Hocc. by apply Hno, occurs_cons.
Qed.

(** The name of the log file is one name when the time stamp is. *)
Lemma log_filename_one_name stamp :
  ¬ Str.occurs "/" stamp →
  ¬ Str.occurs "/" ("caption_edit_log_" +:+ stamp +:+ ".txt").
Proof.
  intros Hstamp [Hocc|[Hocc|Hocc]%occurs_single_app]%occurs_single_app; [|done|];
    revert Hocc; decide_occurs.
Qed.

Lemma dir_at_insert_below t key name nd :
  Posix.dir_at t key = true → Posix.dir_at (<[key ++ [name] := nd]> t) key = true.
Proof.
  unfold Posix.dir_at, Posix.node_at. destruct key as [|k key]; [done|].
  rewrite lookup_insert_ne; [done|].
  intros Heq%(f_equal length). rewrite length_app in Heq. simpl in Heq. lia.
Qed.

(** The path [.] leads to the working directory. *)
Lemma locate_here cwd t :
  Posix.dir_at t cwd = true → Posix.locate_path cwd t "." = inr cwd.
Proof.
  intros Hcwd. unfold Posix.locate_path.
  change (Posix.path_str "." []) with ".". unfold Posix.locate.
  change (bool_decide ("." = "")) with false.
  change (Posix.PATH_MAX <=? String.length ".")%nat with false.
  change (Posix.walk t (Posix.origin cwd ".") (Posix.split Posix.slash "."))
    with (Posix.walk t cwd ["."]).
  cbn [Posix.walk]. unfold Posix.dir_at in Hcwd.
  by destruct (Posix.node_at t cwd) as [[]|].
Qed.

Lemma is_dir_here cwd m :
  Posix.dir_at (Posix.tree m) cwd = true → Posix.is_dir cwd "." m = Ok true.
Proof.
  intros Hcwd. unfold Posix.is_dir, Posix.stat. rewrite locate_here by done.
  unfold Posix.dir_at in Hcwd. by destruct (Posix.node_at (Posix.tree m) cwd) as [[]|].
Qed.

(** X16: The log file of a run is written into the working directory under a
    name that ends in [.txt]: once it is written, a non-recursive discovery
    of the working directory returns it among the files to edit. *)
Theorem error_log_is_rediscovered cwd w log_filename error_log :
  (@setup_logging _ (Posix.os_at cwd) w).1 = Ok log_filename →
  ¬ Str.occurs "/" (Posix.clock_stamp (os w)) →
  Posix.dir_at (Posix.tree (os w)) cwd = true →
  let r := @write_error_log _ (Posix.os_at cwd) log_filename error_log w in
  r.1 = Ok () →
  ∃ found,
    @scan_directory _ (Posix.os_at cwd) "." false r.2 = (Ok found, r.2)
    ∧ log_filename ∈ found.
Proof.
  intros Hname Hstamp Hcwd.
  assert (log_filename = "caption_edit_log_" +:+ Posix.clock_stamp (os w) +:+ ".txt")
    as Heq by (by injection Hname).
  clear Hname.
  assert (log_filename ≠ "" ∧ log_filename ≠ "." ∧ log_filename ≠ ".."
          ∧ Posix.is_abs log_filename = false)
    as (Hempty & Hdot & Hdots & Habs) by (rewrite Heq; simpl; by split_and!).
  assert (Posix.locate cwd (Posix.tree (os w)) log_filename = inr (cwd ++ [log_filename])
          ∨ ∃ code, Posix.locate cwd (Posix.tree (os w)) log_filename = inl code)
    as [Hlocate|[code Hlocate]].
  { unfold Posix.locate, Posix.origin.
    rewrite split_one_name by (rewrite Heq; by apply log_filename_one_name).
    rewrite Habs, bool_decide_eq_false_2 by done.
    destruct (Posix.PATH_MAX <=? String.length log_filename)%nat; [right; by eexists|].
    cbn [Posix.walk]. unfold Posix.is_here.
    rewrite !bool_decide_eq_false_2 by done.
    unfold Posix.dir_at in Hcwd.
    destruct (Posix.node_at (Posix.tree (os w)) cwd) as [[]|]; try done.
    cbn [orb].
    destruct (Posix.NAME_MAX <? String.length log_filename)%nat;
      [right; by eexists | by left]. }
  2: { unfold write_error_log, write_text. cbn [open_write Posix.os_at fst snd].
       unfold Posix.write. by rewrite Hlocate. }
  unfold write_error_log, write_text. cbn [open_write Posix.os_at fst snd].
  unfold Posix.write. rewrite Hlocate.
  match goal with |- context [Utf8.valid ?x] => set (text := x) end.
  destruct (Posix.node_at (Posix.tree (os w)) (cwd ++ [log_filename])) as [[old|]|];
    try destruct (Utf8.valid text); cbn [fst snd]; try discriminate; intros _.
  all: match goal with
       | |- context [record_call ?c ?o ?w0] => set (w' := record_call c o w0)
       end.
  all: assert (@path_is_dir _ (Posix.os_at cwd) "." (os w') = Ok true) as Hdir
         by (apply is_dir_here; cbn; by apply dir_at_insert_below).
  all: destruct (scan_directory_children cwd "." w' Hdir)
         as (base & found & Hbase & Hfound & Hchildren).
  all: rewrite locate_here in Hbase by (cbn; by apply dir_at_insert_below).
  all: injection Hbase as <-; exists found; split; [done|];
       apply Hchildren; eexists log_filename, _; split_and!;
       [cbn; apply lookup_insert_eq
       |exists ("caption_edit_log_" +:+ Posix.clock_stamp (os w));
        by rewrite Heq, str_app_assoc
       |done].
Qed.

(** Overwriting a file by a file changes nothing about where paths lead. *)
Lemma walk_overwrite t key data data' cur names :
  t !! key = Some (Posix.File data) → key ≠ [] →
  Posix.walk (<[key := Posix.File data']> t) cur names = Posix.walk t cur names.
Proof.
  intros Hkey Hne. revert cur. induction names as [|name names IH]; intros cur; [done|].
  cbn [Posix.walk]. rewrite !IH.
  assert (Posix.node_at (<[key := Posix.File data']> t) cur = Posix.node_at t cur
          ∨ (∃ d d', Posix.node_at (<[key := Posix.File data']> t) cur = Some (Posix.File d)
                     ∧ Posix.node_at t cur = Some (Posix.File d'))) as [->|(d & d' & -> & ->)];
    [|done..].
  unfold Posix.node_at. destruct cur as [|c cur]; [by left|].
  destruct (decide (key = c :: cur)) as [->|Hother].
  - right. rewrite lookup_insert_eq, Hkey. by eexists _, _.
  - left. by rewrite lookup_insert_ne.
Qed.

(** Reading a file whose bytes are the UTF-8 form of a text. *)
Lemma read_file cwd m p key data :
  Posix.locate cwd (Posix.tree m) p = inr key → key ≠ [] →
  Posix.tree m !! key = Some (Posix.File data) → Utf8.valid data = true →
  Posix.read cwd p m = (Ok (Utf8.universal_newlines data), m).
Proof.
  intros Hlocate Hne Hkey Hvalid. unfold Posix.read. rewrite Hlocate.
  unfold Posix.node_at. destruct key; [done|]. by rewrite Hkey, Hvalid.
Qed.

(** X17: On the machine the content read from a file is the text its bytes
    encode, with the line ends [\r\n] and [\r] turned into [\n], so that
    an in-place edit does not keep such line ends.  The edit of a file that
    can be read goes through exactly when the transformed content can be
    encoded: the file then holds the transformed content, which a further
    read returns with its line ends translated.  Otherwise the edit fails
    with the error of the encoding, and the file is left empty.  In both
    cases every other file and directory is as before. *)
Theorem process_file_edits_in_place
    cwd files target swap prepend append file_path w content :
  (@read_text _ (Posix.os_at cwd) file_path w).1 = Ok content →
  let r := @process_file _ (Posix.os_at cwd) files target swap prepend append None
             file_path w in
  let new := edit_file_content content target swap prepend append in
  ∃ key data,
    Posix.locate cwd (Posix.tree (os w)) file_path = inr key
    ∧ Posix.tree (os w) !! key = Some (Posix.File data)
    ∧ Utf8.valid data = true
    ∧ content = Utf8.universal_newlines data
    ∧ if Utf8.valid new
      then r.1 = Ok ()
           ∧ Posix.tree (os r.2) = <[key := Posix.File new]> (Posix.tree (os w))
           ∧ (@read_text _ (Posix.os_at cwd) file_path r.2).1
             = Ok (Utf8.universal_newlines new)
      else r.1 = Raise (Posix.encode_error (os w) new)
           ∧ Posix.tree (os r.2) = <[key := Posix.File ""]> (Posix.tree (os w))
           ∧ (@read_text _ (Posix.os_at cwd) file_path r.2).1 = Ok "".
Proof.
  intros Hread r new.
  assert (∃ key data,
            Posix.locate cwd (Posix.tree (os w)) file_path = inr key
            ∧ key ≠ []
            ∧ Posix.tree (os w) !! key = Some (Posix.File data)
            ∧ Utf8.valid data = true
            ∧ content = Utf8.universal_newlines data)
    as (key & data & Hlocate & Hne & Hkey & Hdata & Hcontent).
  { revert Hread. unfold read_text. cbn [open_read Posix.os_at fst snd].
    unfold Posix.read.
    destruct (Posix.locate cwd (Posix.tree (os w)) file_path) as [code|key]; [done|].
    destruct (Posix.node_at (Posix.tree (os w)) key) as [[data|]|] eqn:Hnode; try done.
    destruct (Utf8.valid data) eqn:Hdata; [|done].
    cbn [fst snd]. intros [= <-]. exists key, data.
    unfold Posix.node_at in Hnode. by destruct key. }
  exists key, data. split_and!; [done..|].
  pose proof (read_file cwd (os w) file_path key data Hlocate Hne Hkey Hdata) as Hrd.
  rewrite <- Hcontent in Hrd.
  assert (∀ data',
            Posix.locate cwd (<[key := Posix.File data']> (Posix.tree (os w))) file_path
            = inr key) as Hafter.
  { intros data'. unfold Posix.locate in *.
    destruct (bool_decide (file_path = "")); [done|].
    destruct (Posix.PATH_MAX <=? String.length file_path)%nat; [done|].
    by rewrite (walk_overwrite _ key data). }
  subst r. unfold process_file, read_text, write_text, mbind, M_bind, record_call.
  cbn [open_read open_write Posix.os_at fst snd Str.truthy_opt os].
  rewrite Hrd. cbn [fst snd]. fold new. unfold Posix.write. rewrite Hlocate.
  assert (Posix.node_at (Posix.tree (os w)) key = Some (Posix.File data)) as ->
    by (unfold Posix.node_at; by destruct key).
  destruct (Utf8.valid new) eqn:Hnew; cbn [fst snd os]; (split_and!; [done..|]).
  - by erewrite read_file; [| apply Hafter | done | apply lookup_insert_eq | done].
  - by erewrite read_file; [| apply Hafter | done | apply lookup_insert_eq | done].
Qed.

End PosixRuns.

Lemma scan_directory_descendants_witness :
  let w := Posix.boot demo [] in
  @path_is_dir _ (Posix.os_at []) "d" (os w) = Ok true
  ∧ ∃ base found,
      Posix.locate_path [] (Posix.tree (os w)) "d" = inr base
      ∧ @scan_directory _ (Posix.os_at []) "d" true w = (Ok found, w)
      ∧ (∀ p, p ∈ found
              ↔ ∃ rels name nd,
                  Posix.dir_at (Posix.tree (os w)) (base ++ rels) = true
                  ∧ Posix.reachable (Posix.tree (os w)) base rels = true
                  ∧ Posix.tree (os w) !! ((base ++ rels) ++ [name]) = Some nd
                  ∧ (∃ stem, name = stem +:+ ".txt")
                  ∧ p = Posix.path_str "d" (rels ++ [name]))
      ∧ ∀ flat p,
          (@scan_directory _ (Posix.os_at []) "d" false w).1 = Ok flat →
          p ∈ flat → p ∈ found.
Proof.
  intros w.
  assert (@path_is_dir _ (Posix.os_at []) "d" (os w) = Ok true) as Hdir
    by (vm_compute; reflexivity).
  split; [exact Hdir|]. exact (scan_directory_descendants [] "d" w Hdir).
Defined.

(** Two leading slashes of the scanned path are kept in the paths
    returned, three or more are one. *)
Example path_str_roots :
  Posix.path_str "//d" ["a.txt"] = "//d/a.txt"
  ∧ Posix.path_str "///d" ["a.txt"] = "/d/a.txt"
  ∧ Posix.path_str "/d/" ["sub"; "a.txt"] = "/d/sub/a.txt"
  ∧ Posix.path_str "./d//" ["a.txt"] = "d/a.txt"
  ∧ Posix.path_str "." ["a.txt"] = "a.txt"
  ∧ Posix.path_str "//" [] = "//"
  ∧ Posix.path_str "" [] = ".".
Proof. split_and!; vm_compute; reflexivity. Qed.

Example scan_of_double_slash :
  ∃ found, (scan_directory "//d" false (Posix.boot plain [])).1 = Ok found
           ∧ found ≡ₚ ["//d/a.txt"; "//d/b.txt"].
Proof. eexists. split; [vm_compute; reflexivity|]. apply perm_swap. Qed.

Example scan_recursive :
  ∃ found, (scan_directory "d" true (Posix.boot demo [])).1 = Ok found
           ∧ found ≡ₚ ["d/a.txt"; "d/b.txt"; "d/dir.txt"; "d/sub/e.txt"].
Proof.
  eexists. split; [vm_compute; reflexivity|].
  change (["d/dir.txt"; "d/b.txt"; "d/a.txt"] ++ ["d/sub/e.txt"]
          ≡ₚ rev ["d/dir.txt"; "d/b.txt"; "d/a.txt"] ++ ["d/sub/e.txt"]).
  apply Permutation_app_tail, Permutation_rev.
Qed.

Lemma error_log_is_rediscovered_witness :
  let w := Posix.boot demo [] in
  let log_filename := "caption_edit_log_20240101_120000.txt" in
  let r := @write_error_log _ (Posix.os_at []) log_filename ["Error processing x: y"] w in
  ((@setup_logging _ (Posix.os_at []) w).1 = Ok log_filename
   ∧ ¬ Str.occurs "/" (Posix.clock_stamp (os w))
   ∧ Posix.dir_at (Posix.tree (os w)) [] = true
   ∧ r.1 = Ok ())
  ∧ ∃ found,
      @scan_directory _ (Posix.os_at []) "." false r.2 = (Ok found, r.2)
      ∧ log_filename ∈ found.
Proof.
  intros w log_filename r.
  assert ((@setup_logging _ (Posix.os_at []) w).1 = Ok log_filename) as Hname
    by reflexivity.
  assert (¬ Str.occurs "/" (Posix.clock_stamp (os w))) as Hstamp by decide_occurs.
  assert (Posix.dir_at (Posix.tree (os w)) [] = true) as Hcwd by reflexivity.
  assert (r.1 = Ok ()) as Hwrite by (vm_compute; reflexivity).
  split; [by split_and!|].
  exact (error_log_is_rediscovered [] w log_filename ["Error processing x: y"]
           Hname Hstamp Hcwd Hwrite).
Defined.

Lemma process_file_edits_in_place_witness :
  let w := Posix.boot notes [] in
  let r := @process_file _ (Posix.os_at []) ["notes/note.txt"] "world" "there"
             (Some ">> ") None None "notes/note.txt" w in
  (@read_text _ (Posix.os_at []) "notes/note.txt" w).1 = Ok "hello world"
  ∧ r.1 = Ok ()
  ∧ (@read_text _ (Posix.os_at []) "notes/note.txt" r.2).1 = Ok ">> hello there".
Proof.
  intros w r.
  assert ((@read_text _ (Posix.os_at []) "notes/note.txt" w).1 = Ok "hello world")
    as Hread by (vm_compute; reflexivity).
  split; [exact Hread|].
  destruct (process_file_edits_in_place [] ["notes/note.txt"] "world" "there"
              (Some ">> ") None "notes/note.txt" w "hello world" Hread)
    as (key & data & _ & _ & _ & _ & Hcase).
  assert (Utf8.valid (edit_file_content "hello world" "world" "there" (Some ">> ") None)
          = true) as Hvalid by (vm_compute; reflexivity).
  cbv zeta in Hcase. rewrite Hvalid in Hcase. destruct Hcase as (Hok & _ & Hback).
  split; [exact Hok | exact Hback].
Defined.

(** A file with the line end [\r\n] is written back with [\n], also when
    the target does not occur in it. *)
Example line_ends_are_not_kept :
  let cr := String "013" "" in
  let lf := String "010" "" in
  let m := Posix.machine_of [(["f.txt"], Posix.File ("a" +:+ cr +:+ lf +:+ "b" +:+ cr))] in
  let r := process_file ["f.txt"] "world" "there" None None None "f.txt"
             (Posix.boot m []) in
  r.1 = Ok ()
  ∧ Posix.tree (os r.2) !! ["f.txt"] = Some (Posix.File ("a" +:+ lf +:+ "b" +:+ lf)).
Proof. split; vm_compute; reflexivity. Qed.

(** A replacement that cannot be encoded, here a surrogate taken from the
    command line, leaves the file empty. *)
Example failed_write_empties_the_file :
  let surrogate := String "237" (String "179" (String "191" "")) in
  let r := process_file ["notes/note.txt"] "world" surrogate None None None
             "notes/note.txt" (Posix.boot notes []) in
  (∃ e, r.1 = Raise e)
  ∧ Posix.tree (os r.2) !! ["notes"; "note.txt"] = Some (Posix.File "").
Proof. split; [eexists|]; vm_compute; reflexivity. Qed.
